(** * An entity-component-system registry: [World], its storages and views

    A shallow embedding of [include/ecs/world.h].

    - [std::set<Entity>] is a [gset Entity]; where the code iterates over it
      the elements are taken in ascending [entityId] order, as [std::set]
      does.
    - [std::map<Entity, Component>] is a [gmap Entity Component].
    - [std::unordered_map] is a [gmap] as well; its iteration order is not
      fixed by the language, so every loop over one goes through the class
      [HashOrder], of which only "it enumerates the table" is known.
    - [unsigned] is 32 bits wide: an [N] below [2^32], with the wrap-around
      of [++] written out.
    - [std::type_index] is an [N]: component types are numbered, and the
      values of all component types live in one universe [Component].
    - Subscriber callbacks are values of an opaque type [Callback]; what a
      callback does when it is called with the [World&] and an entity is
      given by the class [Subscribers]: whether it returns or throws, the
      world it leaves, and the identifiers [createEntity] returned to it.
    - [publish] goes through the table of callbacks while the callbacks
      run: a callback that was disconnected before its turn is not called.
      A callback that erases the element the loop stands at, or inserts
      into the table (which may rehash it), invalidates the iterator of the
      loop: that is undefined.
    - A C++ exception is an [Outcome] [Raise]; the world reached when the
      exception leaves the member function is kept next to it.  What the
      language leaves undefined is the failure [undefined]; nothing is said
      of what comes after it.
    - A member function publishes events: the calls of [publish] it makes
      itself are recorded, with their arguments, next to its outcome, and
      so are the identifiers that [createEntity] returned while it ran.
    - A [std::set] iterator is a position in the ascending sequence of the
      set; reading through the end iterator is undefined.  The tuple
      [operator*] returns binds the entity by reference to a local variable
      of [operator*]: the reference dangles once [operator*] has returned,
      and reading through it is undefined. *)

From Stdlib Require Import NArith.
From stdpp Require Import base option list sorting gmap fin_maps fin_sets.

(** ** Entity *)

Record Entity := { entityId : N }.

#[global] Instance Entity_eq_dec : EqDecision Entity.
Proof. solve_decision. Defined.

#[global] Instance Entity_countable : Countable Entity :=
  inj_countable' entityId Build_Entity (λ e, match e with Build_Entity _ => eq_refl end).

(** [operator<=>] is defaulted: entities compare by [entityId]. *)
Definition Entity_le (a b : Entity) : Prop := (entityId a <= entityId b)%N.

#[global] Instance Entity_le_dec a b : Decision (Entity_le a b).
Proof. unfold Entity_le. apply _. Defined.

#[global] Instance Entity_le_total : Total Entity_le.
Proof. intros a b. unfold Entity_le. lia. Qed.

#[global] Instance Entity_le_trans : Transitive Entity_le.
Proof. intros a b c. unfold Entity_le. lia. Qed.

#[global] Instance Entity_le_antisymm : AntiSymm (=) Entity_le.
Proof. intros [a] [b]. unfold Entity_le. simpl. intros. f_equal. lia. Qed.

(** Iterating a [std::set<Entity>] from [begin()] to [end()]. *)
Definition in_order (s : gset Entity) : list Entity :=
  merge_sort Entity_le (elements s).

(** ** [unsigned] arithmetic *)

Definition UINT_MODULUS : N := 4294967296.

(** [n++] on an [unsigned]: the value stored back. *)
Definition uint_succ (n : N) : N := ((n + 1) mod UINT_MODULUS)%N.

(** ** Failures *)

Inductive Failure :=
  | out_of_range      (* std::out_of_range, thrown by [at] *)
  | undefined.        (* behaviour the language leaves undefined *)

Inductive Outcome (A : Type) :=
  | Return (a : A)
  | Raise (f : Failure).
Arguments Return {A} a.
Arguments Raise {A} f.

#[global] Instance Failure_eq_dec : EqDecision Failure.
Proof. solve_decision. Defined.

#[global] Instance Outcome_eq_dec {A} `{EqDecision A} : EqDecision (Outcome A).
Proof. solve_decision. Defined.

Definition Outcome_bind {A B} (o : Outcome A) (k : A → Outcome B) : Outcome B :=
  match o with
  | Return a => k a
  | Raise f => Raise f
  end.

#[global] Instance Outcome_ret : MRet Outcome := @Return.
#[global] Instance Outcome_mbind : MBind Outcome := λ A B k o, Outcome_bind o k.

(** A pack expansion [g(Ts)...], evaluated left to right. *)
Fixpoint expand {A B} (g : A → Outcome B) (l : list A) : Outcome (list B) :=
  match l with
  | [] => Return []
  | x :: l' => y ← g x; ys ← expand g l'; Return (y :: ys)
  end.

(** A fold [(g(Ts) && ...)], which stops at the first [false]. *)
Fixpoint conjunction {A} (g : A → Outcome bool) (l : list A) : Outcome bool :=
  match l with
  | [] => Return true
  | x :: l' => b ← g x; if b : bool then conjunction g l' else Return false
  end.

(** A range-based [for] whose body updates the state [St] of the caller. *)
Fixpoint for_each {A St} (body : A → St → Outcome St) (l : list A) (st : St) : Outcome St :=
  match l with
  | [] => Return st
  | x :: l' => st' ← body x st; for_each body l' st'
  end.

(** A computation on iterators: [None] when the fuel given to a loop ran
    out, otherwise its outcome and the positions of the underlying
    [std::set] at which an iterator was dereferenced, in order. *)
Definition Step (A : Type) : Type := option (Outcome A * list nat).

#[global] Instance Step_ret : MRet Step := λ A a, Some (Return a, []).
#[global] Instance Step_bind : MBind Step := λ A B k m,
  match m with
  | None => None
  | Some (Raise f, r) => Some (Raise f, r)
  | Some (Return a, r) =>
      match k a with
      | None => None
      | Some (o, r') => Some (o, r ++ r')
      end
  end.

Definition raised {A} (o : Outcome A) : Step A := Some (o, []).

(** A reference: to an object that is alive, or to one whose lifetime has
    ended.  Reading through the latter is undefined. *)
Inductive Reference (A : Type) :=
  | Alive (a : A)
  | Dangling.
Arguments Alive {A} a.
Arguments Dangling {A}.

Definition read {A} (r : Reference A) : Outcome A :=
  match r with
  | Alive a => Return a
  | Dangling => Raise undefined
  end.

(** The number of leading elements of [l] that fail [P]. *)
Fixpoint skip_count {A} (P : A → bool) (l : list A) : nat :=
  match l with
  | [] => 0
  | x :: l' => if P x then 0 else S (skip_count P l')
  end.

(** The three dispatchers of a storage. *)
Inductive Phase := OnCreate | OnUpdate | OnRemove.

#[global] Instance Phase_eq_dec : EqDecision Phase.
Proof. solve_decision. Defined.

(** ** Traversal of a [std::unordered_map] *)

Class HashOrder := {
  hash_order : ∀ A : Type, gmap N A → list (N * A);
  hash_order_perm : ∀ (A : Type) (m : gmap N A), hash_order A m ≡ₚ map_to_list m;
}.

(** The enumeration [map_to_list] of the table is one such order. *)
Program Definition bucket_order : HashOrder :=
  {| hash_order := λ A m, map_to_list m |}.
Next Obligation. reflexivity. Qed.

(** Traversal in the opposite direction is another. *)
Program Definition reverse_order : HashOrder :=
  {| hash_order := λ A m, reverse (map_to_list m) |}.
Next Obligation. intros A m. apply reverse_Permutation. Qed.

Section ECS.

Context {Component Callback : Type}.

(** ** Storage<Component>::EventDispatcher *)

Record EventDispatcher := {
  nextCallbackId : N;
  callbacks : gmap N Callback;
}.

Definition EventDispatcher_new : EventDispatcher :=
  {| nextCallbackId := 0; callbacks := ∅ |}.

Definition connect (f : Callback) (d : EventDispatcher) : N * EventDispatcher :=
  let id := nextCallbackId d in
  (id, {| nextCallbackId := uint_succ (nextCallbackId d);
          callbacks := <[id := f]> (callbacks d) |}).

Definition disconnect (callbackId : N) (d : EventDispatcher) : EventDispatcher :=
  {| nextCallbackId := nextCallbackId d;
     callbacks := delete callbackId (callbacks d) |}.

(** ** StorageBase and Storage<Component>

    [items] is the [std::map<Entity, Component>] base class sub-object,
    [st_entities] the member [entities] inherited from [StorageBase]. *)

Record Storage := {
  items : gmap Entity Component;
  st_entities : gset Entity;
  createEventDispatcher : EventDispatcher;
  updateEventDispatcher : EventDispatcher;
  removeEventDispatcher : EventDispatcher;
}.

(** [Storage<Component>{}] *)
Definition Storage_new : Storage :=
  {| items := ∅; st_entities := ∅;
     createEventDispatcher := EventDispatcher_new;
     updateEventDispatcher := EventDispatcher_new;
     removeEventDispatcher := EventDispatcher_new |}.

Definition erase (entity : Entity) (s : Storage) : Storage :=
  {| items := delete entity (items s);
     st_entities := st_entities s ∖ {[entity]};
     createEventDispatcher := createEventDispatcher s;
     updateEventDispatcher := updateEventDispatcher s;
     removeEventDispatcher := removeEventDispatcher s |}.

Definition insert_or_assign (entity : Entity) (component : Component) (s : Storage) : Storage :=
  {| items := <[entity := component]> (items s);
     st_entities := {[entity]} ∪ st_entities s;
     createEventDispatcher := createEventDispatcher s;
     updateEventDispatcher := updateEventDispatcher s;
     removeEventDispatcher := removeEventDispatcher s |}.

(** [std::map::contains] and [std::map::at], reached through the base class. *)
Definition contains (entity : Entity) (s : Storage) : bool :=
  bool_decide (is_Some (items s !! entity)).

Definition at_ (entity : Entity) (s : Storage) : Outcome Component :=
  match items s !! entity with
  | Some c => Return c
  | None => Raise out_of_range
  end.

(** Assignment through the reference [at] returns. *)
Definition store (entity : Entity) (c : Component) (s : Storage) : Storage :=
  {| items := <[entity := c]> (items s);
     st_entities := st_entities s;
     createEventDispatcher := createEventDispatcher s;
     updateEventDispatcher := updateEventDispatcher s;
     removeEventDispatcher := removeEventDispatcher s |}.

Definition dispatcher (p : Phase) (s : Storage) : EventDispatcher :=
  match p with
  | OnCreate => createEventDispatcher s
  | OnUpdate => updateEventDispatcher s
  | OnRemove => removeEventDispatcher s
  end.

Definition set_dispatcher (p : Phase) (d : EventDispatcher) (s : Storage) : Storage :=
  {| items := items s;
     st_entities := st_entities s;
     createEventDispatcher := match p with OnCreate => d | _ => createEventDispatcher s end;
     updateEventDispatcher := match p with OnUpdate => d | _ => updateEventDispatcher s end;
     removeEventDispatcher := match p with OnRemove => d | _ => removeEventDispatcher s end |}.

(** ** World *)

Record World := {
  nextEntityId : N;
  entities : gset Entity;
  componentStorage : gmap N Storage;
}.

(** [World{}] *)
Definition World_new : World :=
  {| nextEntityId := 0; entities := ∅; componentStorage := ∅ |}.

(** One call of [EventDispatcher::publish]: which dispatcher published, and
    the arguments [(World&, Entity)] it handed to its callbacks, the world
    being the one the first callback sees. *)
Record Event := {
  ev_phase : Phase;
  ev_type : N;
  ev_world : World;
  ev_entity : Entity;
}.

(** What running code that is given a [World&] comes to: its outcome, the
    world it leaves, also when it throws, the events published, and the
    identifiers [createEntity] returned in the course of it, oldest
    first. *)
Definition Result (A : Type) : Type := Outcome A * World * list Event * list Entity.

Definition outcome {A} (r : Result A) : Outcome A := r.1.1.1.
Definition world_after {A} (r : Result A) : World := r.1.1.2.
Definition fired {A} (r : Result A) : list Event := r.1.2.
Definition created {A} (r : Result A) : list Entity := r.2.

(** A member function of [World]. *)
Definition M (A : Type) : Type := World → Result A.

Definition ret {A} (a : A) : M A := λ w, (Return a, w, [], []).

Definition bind {A B} (m : M A) (k : A → M B) : M B := λ w,
  match m w with
  | (Return a, w1, l1, c1) =>
      match k a w1 with
      | (r, w2, l2, c2) => (r, w2, l1 ++ l2, c1 ++ c2)
      end
  | (Raise f, w1, l1, c1) => (Raise f, w1, l1, c1)
  end.

#[global] Instance M_ret : MRet M := @ret.
#[global] Instance M_bind : MBind M := λ A B k m, bind m k.

Definition lift {A} (f : World → Outcome A) : M A := λ w, (f w, w, [], []).

(** What a subscriber does when it is called with the [World&], as it is
    then, and the [Entity].  The events it publishes are its own: they are
    not counted among those of the member function that called it. *)
Class Subscribers := invoke : Callback → World → Entity → Result unit.

Context {subs : Subscribers} {order : HashOrder}.

(** *** Private members *)

(** The world in which the storage of [T] is [s]. *)
Definition put (T : N) (s : Storage) (w : World) : World :=
  {| nextEntityId := nextEntityId w;
     entities := entities w;
     componentStorage := <[T := s]> (componentStorage w) |}.

Definition hasStorage (T : N) (w : World) : bool :=
  bool_decide (is_Some (componentStorage w !! T)).

Definition ensureStorage (T : N) : M unit := λ w,
  if negb (hasStorage T w) then (Return (), put T Storage_new w, [], [])
  else (Return (), w, [], []).

(** [componentStorage.at(typeid(Component))] throws when the type has no
    storage. *)
Definition getStorage (T : N) (w : World) : Outcome Storage :=
  match componentStorage w !! T with
  | Some s => Return s
  | None => Raise out_of_range
  end.

(** A member function of [Storage] called on the reference that
    [getStorage<Component>()] returns. *)
Definition on_storage (T : N) (f : Storage → Storage) : M unit := λ w,
  match getStorage T w with
  | Return s => (Return (), put T (f s) w, [], [])
  | Raise e => (Raise e, w, [], [])
  end.

(** *** Queries *)

Definition has (T : N) (entity : Entity) (w : World) : Outcome bool :=
  if negb (hasStorage T w) then Return false
  else Outcome_bind (getStorage T w) (λ s, Return (contains entity s)).

Definition get (T : N) (entity : Entity) (w : World) : Outcome Component :=
  Outcome_bind (getStorage T w) (at_ entity).

(** [size()]; [size] itself is the cardinality of a finite set here. *)
Definition world_size (w : World) : nat := size (entities w).

(** *** Event dispatchers

    [onCreate<T>()], [onUpdate<T>()] and [onRemove<T>()] return a reference
    to a dispatcher that lives inside [T]'s storage; the reference is the
    pair of [T] and the phase. *)

Definition on_phase (p : Phase) (T : N) : M (N * Phase) :=
  ensureStorage T ;;
  _ ← lift (getStorage T);
  mret (T, p).

Definition onCreate : N → M (N * Phase) := on_phase OnCreate.
Definition onUpdate : N → M (N * Phase) := on_phase OnUpdate.
Definition onRemove : N → M (N * Phase) := on_phase OnRemove.

(** The table [callbacks] of the dispatcher of [T] for the phase [p], as
    it is in [w]; no table, no callbacks. *)
Definition subscribers (p : Phase) (T : N) (w : World) : gmap N Callback :=
  match componentStorage w !! T with
  | Some s => callbacks (dispatcher p s)
  | None => ∅
  end.

(** Whether the iterator of the loop in [publish], which stands at the
    element [id], is still valid after the callback of that element has run
    and changed the table from [before] to [after].  Erasing the element
    invalidates the iterator; so may an insertion, which rehashes the table
    when it has grown enough.  Erasing other elements does not. *)
Definition still_valid (id : N) (before after : gmap N Callback) : bool :=
  bool_decide (is_Some (after !! id) ∧ dom after ⊆ dom before).

(** The loop [for (auto& item: callbacks) item.second(world, entity)] of
    [publish], with the identifiers of the elements the iterator has yet to
    pass, in the order of the table.  The callbacks run on the world the
    table is part of: an element that was erased before the iterator
    reached it is not met; an exception that leaves a callback leaves the
    loop. *)
Fixpoint deliver (ref : N * Phase) (entity : Entity) (pending : list N) (w : World) :
    Result unit :=
  match pending with
  | [] => (Return (), w, [], [])
  | id :: pending' =>
      match subscribers ref.2 ref.1 w !! id with
      | None => deliver ref entity pending' w
      | Some callback =>
          let r := invoke callback w entity in
          match outcome r with
          | Raise f => (Raise f, world_after r, [], created r)
          | Return _ =>
              if still_valid id (subscribers ref.2 ref.1 w)
                             (subscribers ref.2 ref.1 (world_after r))
              then
                let r' := deliver ref entity pending' (world_after r) in
                (outcome r', world_after r', [], created r ++ created r')
              else (Raise undefined, world_after r, [], created r)
          end
      end
  end.

(** [publish] called, with this world and [entity], on the dispatcher [ref]
    refers to. *)
Definition publish (ref : N * Phase) (entity : Entity) : M unit := λ w,
  match getStorage ref.1 w with
  | Return s =>
      let r := deliver ref entity (hash_order _ (callbacks (dispatcher ref.2 s))).*1 w in
      (outcome r, world_after r,
       [ {| ev_phase := ref.2; ev_type := ref.1; ev_world := w; ev_entity := entity |} ],
       created r)
  | Raise _ => (Raise undefined, w, [], [])
  end.

(** [connect(f)] and [disconnect(id)] on the dispatcher [ref] refers to. *)
Definition connect_at (ref : N * Phase) (f : Callback) : M N :=
  s ← lift (getStorage ref.1);
  let r := connect f (dispatcher ref.2 s) in
  on_storage ref.1 (set_dispatcher ref.2 r.2) ;;
  mret r.1.

Definition disconnect_at (ref : N * Phase) (callbackId : N) : M unit :=
  on_storage ref.1 (λ s, set_dispatcher ref.2 (disconnect callbackId (dispatcher ref.2 s)) s).

(** *** Components *)

Definition assign (T : N) (entity : Entity) (component : Component) : M unit :=
  ensureStorage T ;;
  held ← lift (has T entity);
  let isCreated := negb held in
  on_storage T (insert_or_assign entity component) ;;
  if isCreated then
    d ← onCreate T; publish d entity
  else
    d ← onUpdate T; publish d entity.

Definition transform (T : N) (entity : Entity) (f : Component → Component) : M unit :=
  s ← lift (getStorage T);
  component ← lift (λ _, at_ entity s);
  on_storage T (store entity (f component)) ;;
  d ← onUpdate T;
  publish d entity.

(** [f] takes the component by reference and leaves its new value in it. *)
Definition patch (T : N) (entity : Entity) (f : Component → Component) : M unit :=
  s ← lift (getStorage T);
  component ← lift (λ _, at_ entity s);
  on_storage T (store entity (f component)) ;;
  d ← onUpdate T;
  publish d entity.

Definition remove (T : N) (entity : Entity) : M unit :=
  d ← onRemove T;
  publish d entity ;;
  on_storage T (erase entity).

(** *** Entities *)

Definition createEntity : M Entity := λ w,
  let newEntity := {| entityId := nextEntityId w |} in
  (Return newEntity,
   {| nextEntityId := uint_succ (nextEntityId w);
      entities := {[newEntity]} ∪ entities w;
      componentStorage := componentStorage w |}, [], [newEntity]).

Definition destroyEntity (entity : Entity) : M unit := λ w,
  (Return (),
   {| nextEntityId := nextEntityId w;
      entities := entities w ∖ {[entity]};
      componentStorage := erase entity <$> componentStorage w |}, [], []).

(** ** View<Components...>

    The template parameter pack is kept in the record.  The constructor
    takes the storages by value and moves each into a heap object of the
    view's own; [std::unordered_map::insert] keeps an entry that is already
    there. *)

Record View := {
  Components : list N;
  storages : gmap N Storage;
}.

Definition View_new (Ts : list N) (storages_ : list Storage) : View :=
  {| Components := Ts;
     storages :=
       foldl (λ m item, match m !! item.1 with
                        | Some _ => m
                        | None => <[item.1 := item.2]> m
                        end) ∅ (zip Ts storages_) |}.

Definition view (Ts : list N) (w : World) : Outcome View :=
  if negb (forallb (λ T, hasStorage T w) Ts) then
    Return (View_new Ts ((λ _, Storage_new) <$> Ts))
  else
    ss ← expand (λ T, getStorage T w) Ts;
    Return (View_new Ts ss).

(** [View::getStorage<Component>()]: [storages[typeid(Component)]] holds a
    null pointer when the type is not in the table, and the pointer is
    dereferenced. *)
Definition View_getStorage (v : View) (T : N) : Outcome Storage :=
  match storages v !! T with
  | Some s => Return s
  | None => Raise undefined
  end.

(** [storages.begin()->second] *)
Definition base (v : View) : Outcome Storage :=
  match hash_order _ (storages v) with
  | item :: _ => Return item.2
  | [] => Raise undefined
  end.

(** [(getStorage<Components>().contains(entity) && ...)] *)
Definition contains_all (v : View) (entity : Entity) : Outcome bool :=
  conjunction (λ T, s ← View_getStorage v T; Return (contains entity s)) (Components v).

(** [getStorage<Components>().at(entity)...] *)
Definition at_all (v : View) (entity : Entity) : Outcome (list Component) :=
  expand (λ T, s ← View_getStorage v T; at_ entity s) (Components v).

(** [each(f)]; what [f] does, to whatever it has captured, is a change of
    the state [St]. *)
Definition each {St : Type} (v : View) (f : Entity → list Component → St → St) (st : St) :
    Outcome St :=
  b ← base v;
  for_each (λ entity st,
              ok ← contains_all v entity;
              if ok : bool then
                args ← at_all v entity;
                Return (f entity args st)
              else Return st)
           (in_order (st_entities b)) st.

(** *** std::set<Entity>::iterator

    An iterator into a set is the sequence of the set and a position in it;
    [end()] is the position one past the last element. *)

Record SetIterator := {
  range : list Entity;
  position : nat;
}.

Definition set_begin (s : gset Entity) : SetIterator :=
  {| range := in_order s; position := 0 |}.

Definition set_end (s : gset Entity) : SetIterator :=
  {| range := in_order s; position := length (in_order s) |}.

Definition set_neq (a b : SetIterator) : bool :=
  negb (position a =? position b).

Definition set_next (a : SetIterator) : SetIterator :=
  {| range := range a; position := S (position a) |}.

(** Reading through an iterator, which is undefined when it points at no
    element; the read is recorded either way. *)
Definition set_deref (a : SetIterator) : Step Entity :=
  Some (match range a !! position a with
        | Some entity => Return entity
        | None => Raise undefined
        end, [position a]).

(** *** View::Iterator *)

Record Iterator := {
  container : View;
  entityIterator : SetIterator;
  endIterator : SetIterator;
}.

(** [auto entity = *entityIterator; return std::tie(entity, ...);]: the
    components of the tuple are references, the first one to the local
    variable [entity], which is gone when the tuple reaches the caller. *)
Definition operator_star (it : Iterator) : Step (Reference Entity * list Component) :=
  entity ← set_deref (entityIterator it);
  args ← raised (at_all (container it) entity);
  mret (Dangling, args).

Definition operator_neq (it other : Iterator) : bool :=
  set_neq (entityIterator it) (entityIterator other).

(** The [while] loop of [operator++]; [fuel] bounds its iterations. *)
Fixpoint operator_incr (fuel : nat) (it : Iterator) : Step Iterator :=
  if set_neq (entityIterator it) (endIterator it) then
    match fuel with
    | 0 => None
    | S fuel' =>
        let it' := {| container := container it;
                      entityIterator := set_next (entityIterator it);
                      endIterator := endIterator it |} in
        entity ← set_deref (entityIterator it');
        ok ← raised (contains_all (container it') entity);
        if ok : bool then mret it' else operator_incr fuel' it'
    end
  else mret it.

Definition begin (v : View) : Outcome Iterator :=
  b ← base v;
  Return {| container := v;
            entityIterator := set_begin (st_entities b);
            endIterator := set_end (st_entities b) |}.

Definition end_ (v : View) : Outcome Iterator :=
  b ← base v;
  Return {| container := v;
            entityIterator := set_end (st_entities b);
            endIterator := set_end (st_entities b) |}.

(** A loop of the caller: [None] when the fuel ran out, otherwise its
    outcome, the state [St] its body has brought about, which stays when an
    exception leaves the loop, and the positions read. *)
Definition Loop (St : Type) : Type := option (Outcome unit * St * list nat).

(** [for (; it != last; ++it) { auto&& [entity, args...] = *it; body }] *)
Fixpoint loop {St : Type} (fuel : nat) (it last : Iterator)
    (body : Reference Entity → list Component → St → Outcome St) (st : St) : Loop St :=
  if operator_neq it last then
    match fuel with
    | 0 => None
    | S fuel' =>
        match operator_star it with
        | None => None
        | Some (Raise f, reads) => Some (Raise f, st, reads)
        | Some (Return x, reads) =>
            match body x.1 x.2 st with
            | Raise f => Some (Raise f, st, reads)
            | Return st' =>
                match operator_incr fuel it with
                | None => None
                | Some (Raise f, reads') => Some (Raise f, st', reads ++ reads')
                | Some (Return it', reads') =>
                    match loop fuel' it' last body st' with
                    | None => None
                    | Some (o, st'', reads'') => Some (o, st'', reads ++ reads' ++ reads'')
                    end
                end
            end
        end
    end
  else Some (Return (), st, []).

(** [for (auto&& [entity, args...]: v) body] *)
Definition range_for {St : Type} (fuel : nat) (v : View)
    (body : Reference Entity → list Component → St → Outcome St) (st : St) : Loop St :=
  match begin v with
  | Raise f => Some (Raise f, st, [])
  | Return it =>
      match end_ v with
      | Raise f => Some (Raise f, st, [])
      | Return last => loop fuel it last body st
      end
  end.

(** ** Vocabulary of the statements *)

(** What the loop of a [publish] on the dispatcher of [T] for the phase
    [p], started in [w], comes to. *)
Definition delivery (p : Phase) (T : N) (entity : Entity) (w : World) : Result unit :=
  deliver (T, p) entity (hash_order _ (subscribers p T w)).*1 w.

(** The worlds that calls of subscribers to the event [p] of [T], for
    [entity], lead to from [w]: each call is made on the world the one
    before it left, to a callback that is in the table at that time. *)
Inductive notified (p : Phase) (T : N) (entity : Entity) (w : World) : World → Prop :=
  | notified_none : notified p T entity w w
  | notified_call w' id callback :
      notified p T entity w w' →
      subscribers p T w' !! id = Some callback →
      notified p T entity w (world_after (invoke callback w' entity)).

(** [r] is what the call of the only subscriber comes to: when the event
    [p] of [T] has exactly one subscriber in [w], [r] leaves the world that
    the call of it in [w] leaves, with the identifiers issued to it, raises
    what it raises, and returns when it returns and leaves the iterator of
    the loop valid. *)
Definition as_the_only_subscriber (p : Phase) (T : N) (entity : Entity) (w : World)
    (r : Result unit) : Prop :=
  ∀ id callback, subscribers p T w = {[id := callback]} →
    let i := invoke callback w entity in
    world_after r = world_after i ∧ created r = created i ∧
    (∀ f, outcome i = Raise f → outcome r = Raise f) ∧
    (outcome i = Return () →
     still_valid id (subscribers p T w) (subscribers p T (world_after i)) = true →
     outcome r = Return ()).

(** The storage of [T], or the empty one [ensureStorage] would create. *)
Definition storage_of (T : N) (w : World) : Storage :=
  default Storage_new (componentStorage w !! T).

(** The key set of the mapping of a storage and its membership set agree. *)
Definition in_sync (s : Storage) : Prop := dom (items s) = st_entities s.

Definition storages_in_sync (w : World) : Prop :=
  ∀ T s, componentStorage w !! T = Some s → in_sync s.

(** [entity] holds every component type of [Ts] in [w], and the values it
    holds, in the order of [Ts]. *)
Definition holds_all (Ts : list N) (entity : Entity) (w : World) : Prop :=
  Forall (λ T, has T entity w = Return true) Ts.

#[global] Instance holds_all_dec Ts entity w : Decision (holds_all Ts entity w).
Proof. unfold holds_all. apply _. Defined.

(** The entities that hold every type of [Ts], in ascending order. *)
Definition holders (Ts : list N) (w : World) : list Entity :=
  match Ts with
  | [] => []
  | T :: _ =>
      filter (λ entity, holds_all Ts entity w)
             (in_order (dom (items (storage_of T w))))
  end.

(** The storages [view<Ts...>()] hands to the constructor of the view:
    copies of the storages of the world when every type of [Ts] has one,
    empty storages otherwise. *)
Definition viewed (Ts : list N) (w : World) (T : N) : Storage :=
  if forallb (λ T, hasStorage T w) Ts then storage_of T w else Storage_new.

Definition values (Ts : list N) (entity : Entity) (w : World) : list Component :=
  match expand (λ T, get T entity w) Ts with
  | Return cs => cs
  | Raise _ => []
  end.

(** The iterator of [v] at position [i] of the sequence [l] of its primary
    set. *)
Definition iterator_at (v : View) (l : list Entity) (i : nat) : Iterator :=
  {| container := v;
     entityIterator := {| range := l; position := i |};
     endIterator := {| range := l; position := length l |} |}.

(** The calls a client can make on a world.  [Connect p T f] is
    [world.onX<T>().connect(f)] for the phase [p], [Disconnect] likewise. *)
Inductive Call :=
  | Assign (T : N) (entity : Entity) (component : Component)
  | Transform (T : N) (entity : Entity) (f : Component → Component)
  | Patch (T : N) (entity : Entity) (f : Component → Component)
  | Get (T : N) (entity : Entity)
  | Has (T : N) (entity : Entity)
  | Remove (T : N) (entity : Entity)
  | Size
  | CreateEntity
  | DestroyEntity (entity : Entity)
  | ViewOf (Ts : list N)
  | Dispatcher (p : Phase) (T : N)
  | Connect (p : Phase) (T : N) (f : Callback)
  | Disconnect (p : Phase) (T : N) (callbackId : N).

Definition call (c : Call) : M unit :=
  match c with
  | Assign T entity component => assign T entity component
  | Transform T entity f => transform T entity f
  | Patch T entity f => patch T entity f
  | Get T entity => _ ← lift (get T entity); mret ()
  | Has T entity => _ ← lift (has T entity); mret ()
  | Remove T entity => remove T entity
  | Size => mret ()
  | CreateEntity => _ ← createEntity; mret ()
  | DestroyEntity entity => destroyEntity entity
  | ViewOf Ts => _ ← lift (view Ts); mret ()
  | Dispatcher p T => _ ← on_phase p T; mret ()
  | Connect p T f => d ← on_phase p T; _ ← connect_at d f; mret ()
  | Disconnect p T callbackId => d ← on_phase p T; disconnect_at d callbackId
  end.

(** A client session: the calls are made one after the other, an exception
    is caught and the session goes on.  Next to the world, the identifiers
    that [createEntity] returned so far, oldest first. *)
Fixpoint run (calls : list Call) (w : World) (issued : list Entity) : World * list Entity :=
  match calls with
  | [] => (w, issued)
  | c :: calls' =>
      let r := call c w in run calls' (world_after r) (issued ++ created r)
  end.

(** The identifiers issued so far are the numbers below their count, the
    counter is that count, and only issued identifiers are live: what holds
    of a session until the counter wraps around. *)
Definition counter_tracks (w : World) (issued : list Entity) : Prop :=
  let n := N.of_nat (length issued) in
  (n <= UINT_MODULUS)%N →
  nextEntityId w = (n mod UINT_MODULUS)%N ∧
  (∀ e, e ∈ issued ↔ (entityId e < n)%N) ∧
  (∀ e, e ∈ entities w → e ∈ issued).

(** [n] calls of [createEntity] in a row. *)
Definition create_many (n : N) (w : World) : World :=
  N.iter n (λ w, world_after (createEntity w)) w.

(** ** Vocabulary of the further statements *)

(** What a client does with one dispatcher. *)
Inductive DispatcherCall :=
  | DoConnect (f : Callback)
  | DoDisconnect (callbackId : N).

(** The calls are made one after the other on the dispatcher.  Next to it,
    the identifiers that [connect] returned so far, oldest first. *)
Fixpoint dispatch (calls : list DispatcherCall) (d : EventDispatcher) (returned : list N) :
    EventDispatcher * list N :=
  match calls with
  | [] => (d, returned)
  | DoConnect f :: calls' =>
      let r := connect f d in dispatch calls' r.2 (returned ++ [r.1])
  | DoDisconnect callbackId :: calls' =>
      dispatch calls' (disconnect callbackId d) returned
  end.

(** The subscribers of [T] for the phase [p] only observe in [w]: called
    there with [entity], each returns normally and leaves the world as it
    is. *)
Definition observers (p : Phase) (T : N) (entity : Entity) (w : World) : Prop :=
  ∀ id cb, subscribers p T w !! id = Some cb →
           outcome (invoke cb w entity) = Return () ∧ world_after (invoke cb w entity) = w.

(** One call of a subscriber, on the world and the identifiers issued so
    far. *)
Definition called (entity : Entity) (a : World * list Entity) (callback : Callback) :
    World * list Entity :=
  (world_after (invoke callback a.1 entity), a.2 ++ created (invoke callback a.1 entity)).

(** The entities that have an entry in the mapping of some storage were all
    issued. *)
Definition stored_issued (w : World) (issued : list Entity) : Prop :=
  ∀ T s e, componentStorage w !! T = Some s → is_Some (items s !! e) → e ∈ issued.

(** A session, run as [run] does, in which [assign] and [remove] are only
    called for entities that [createEntity] returned earlier in it. *)
Fixpoint calls_for_issued (calls : list Call) (w : World) (issued : list Entity) : Prop :=
  match calls with
  | [] => True
  | c :: calls' =>
      match c with
      | Assign _ entity _ | Remove _ entity => entity ∈ issued
      | _ => True
      end ∧
      let r := call c w in
      calls_for_issued calls' (world_after r) (issued ++ created r)
  end.

End ECS.

Arguments Subscribers : clear implicits.
Arguments EventDispatcher : clear implicits.
Arguments Storage : clear implicits.
Arguments World : clear implicits.
Arguments Event : clear implicits.
Arguments M : clear implicits.
Arguments View : clear implicits.
Arguments Iterator : clear implicits.
Arguments Call : clear implicits.
Arguments DispatcherCall : clear implicits.

(** ** Sample worlds

    Component values are integers; the component types [int] and [float] of
    the tests are the types number 0 and 1. *)

Module Sample.

Definition int : N := 0.
Definition float : N := 1.

Definition e0 : Entity := {| entityId := 0 |}.
Definition e1 : Entity := {| entityId := 1 |}.

(** Subscribers that return at once. *)
Definition quiet {Component Callback} : Subscribers Component Callback :=
  λ _ w _, (Return (), w, [], []).

(** The only callback there is calls [world.remove<int>(entity)]; the
    dispatchers of the worlds it is used in have no other subscribers. *)
Definition removing : Subscribers Z unit :=
  λ _ w entity, remove (subs := quiet) (order := bucket_order) int entity w.

(** The only callback there is reads [world.get<float>(entity)]. *)
Definition getting : Subscribers Z unit :=
  λ _ w entity, call (subs := quiet) (order := bucket_order) (Get float entity) w.

(** The only callback there is calls [world.createEntity()]. *)
Definition creating : Subscribers Z unit :=
  λ _ w _, call (subs := quiet) (order := bucket_order) CreateEntity w.

(** The only callback there is calls [world.assign<float>(entity, 1)]. *)
Definition tagging : Subscribers Z unit :=
  λ _ w entity, assign (subs := quiet) (order := bucket_order) float entity 1%Z w.

(** What a session leaves behind, started in a new world. *)
Definition session (subs : Subscribers Z unit) (calls : list (Call Z unit)) : World Z unit :=
  (run (subs := subs) (order := bucket_order) calls World_new []).1.

(** One entity, with an [int]. *)
Definition single : World Z unit :=
  session quiet [CreateEntity; Assign int e0 5%Z].

(** Two entities, the first with an [int] only, the second with a [float]
    only. *)
Definition split : World Z unit :=
  session quiet [CreateEntity; Assign int e0 10%Z; CreateEntity; Assign float e1 20%Z].

(** The world of the test "joint view only shows entities that have both
    components": the first entity with an [int] and a [float], the second
    with an [int] only. *)
Definition joint : World Z unit :=
  session quiet [CreateEntity; Assign int e0 0%Z; Assign float e0 0%Z;
                 CreateEntity; Assign int e1 1%Z].

(** One entity and one subscriber to the create event of [int]. *)
Definition watched : World Z unit :=
  session removing [CreateEntity; Connect OnCreate int ()].

(** One entity, with an [int], that was assigned when the events of
    [int] each had a subscriber, which gave the entity a [float]. *)
Definition tagged : World Z unit :=
  session tagging [CreateEntity; Connect OnCreate int (); Connect OnUpdate int ();
                   Connect OnRemove int (); Assign int e0 5%Z].

(** One entity, with an [int], and one subscriber to the update event and
    one to the remove event of [int]. *)
Definition probed : World Z unit :=
  session getting [CreateEntity; Assign int e0 5%Z;
                   Connect OnUpdate int (); Connect OnRemove int ()].

(** One entity, with a [float] and an [int], and one subscriber to the
    remove event of [int], which reads the [float] of the entity. *)
Definition observed : World Z unit :=
  session getting [CreateEntity; Assign float e0 1%Z; Assign int e0 5%Z;
                   Connect OnRemove int ()].

(** One entity, with an [int], and one subscriber to the create event and
    one to the remove event of [float], which read the [float] of the
    entity. *)
Definition awaited : World Z unit :=
  session getting [CreateEntity; Assign int e0 5%Z;
                   Connect OnCreate float (); Connect OnRemove float ()].

(** Two callbacks: [true] calls [world.assign<float>(entity, 1)], [false]
    calls [world.assign<double>(entity, 2)], [double] being the type
    number 2. *)
Definition double : N := 2.

Definition marking : Subscribers Z bool :=
  λ callback w entity,
    if callback : bool
    then assign (subs := quiet) (order := bucket_order) float entity 1%Z w
    else assign (subs := quiet) (order := bucket_order) double entity 2%Z w.

(** Two callbacks: [true] calls [world.assign<float>(entity, 1)], [false]
    calls [world.onCreate<int>().disconnect(0)]. *)
Definition unhooking : Subscribers Z bool :=
  λ callback w entity,
    if callback : bool
    then assign (subs := quiet) (order := bucket_order) float entity 1%Z w
    else call (subs := quiet) (order := bucket_order) (Disconnect OnCreate int 0) w.

(** One entity, with an [int], and one subscriber to the remove event of
    [int], which gives the entity a [float]. *)
Definition hooked : World Z unit :=
  session tagging [CreateEntity; Connect OnRemove int (); Assign int e0 5%Z].

(** A callback for [each] that records what it is given. *)
Definition collect (entity : Entity) (args : list Z) (seen : list (Entity * list Z)) :
    list (Entity * list Z) :=
  seen ++ [(entity, args)].

(** The body of a range-based [for] that records the component values and
    leaves the entity alone, and one that records the entity as well. *)
Definition gather (entity : Reference Entity) (args : list Z) (seen : list (list Z)) :
    Outcome (list (list Z)) :=
  Return (seen ++ [args]).

Definition gather_entity (entity : Reference Entity) (args : list Z)
    (seen : list (Entity * list Z)) : Outcome (list (Entity * list Z)) :=
  e ← read entity; Return (seen ++ [(e, args)]).

(** A callback for [each] that changes the world it is run in: it calls
    [world.assign<int>(entity, n + 1)] for the first value [n] it is given. *)
Definition bump (entity : Entity) (args : list Z) (w : World Z unit) : World Z unit :=
  world_after (assign (subs := quiet) (order := bucket_order) int entity (hd 0 args + 1)%Z w).

End Sample.


(** * Properties *)

Section Facts.

Context {Component Callback : Type}.
Context {subs : Subscribers Component Callback} {order : HashOrder}.

Implicit Types (w : World Component Callback) (s : Storage Component Callback).
Implicit Types (T : N) (e : Entity) (p : Phase).

#[local] Ltac unfold_M :=
  unfold mbind, mret, M_bind, M_ret, bind, ret, lift, outcome, world_after, fired, created in *.

Lemma outcome_eq {A} (o : Outcome A) w l cs : outcome (o, w, l, cs) = o.
Proof. done. Qed.

Lemma world_after_eq {A} (o : Outcome A) w l cs : world_after (o, w, l, cs) = w.
Proof. done. Qed.

Lemma fired_eq {A} (o : Outcome A) w l cs : fired (o, w, l, cs) = l.
Proof. done. Qed.

Lemma created_eq {A} (o : Outcome A) w l cs : created (o, w, l, cs) = cs.
Proof. done. Qed.

#[local] Ltac simpl_result :=
  rewrite ?outcome_eq, ?world_after_eq, ?fired_eq, ?created_eq.

(** ** Storages of a world *)

Lemma hasStorage_Some T w s :
  componentStorage w !! T = Some s → hasStorage T w = true.
Proof. intros E. unfold hasStorage. rewrite E. apply bool_decide_eq_true. eauto. Qed.

Lemma hasStorage_None T w :
  componentStorage w !! T = None → hasStorage T w = false.
Proof.
  intros E. unfold hasStorage. rewrite E. apply bool_decide_eq_false.
  intros [? ?]; discriminate.
Qed.

Lemma hasStorage_true T w :
  hasStorage T w = true ↔ ∃ s, componentStorage w !! T = Some s.
Proof.
  unfold hasStorage. rewrite bool_decide_eq_true. reflexivity.
Qed.

Lemma put_put T s s' w : put T s (put T s' w) = put T s w.
Proof. unfold put; simpl. by rewrite insert_insert_eq. Qed.

Lemma put_same T s w : componentStorage w !! T = Some s → put T s w = w.
Proof. intros E. destruct w. unfold put; simpl in *. by rewrite insert_id. Qed.

Lemma lookup_put T T' s w :
  componentStorage (put T s w) !! T' =
  if decide (T = T') then Some s else componentStorage w !! T'.
Proof. unfold put; simpl. apply lookup_insert. Qed.

Lemma lookup_put_eq T s w : componentStorage (put T s w) !! T = Some s.
Proof. rewrite lookup_put. by rewrite decide_True. Qed.

Lemma storage_of_Some T w s : componentStorage w !! T = Some s → storage_of T w = s.
Proof. intros E. unfold storage_of. by rewrite E. Qed.

Lemma storage_of_put T s w : storage_of T (put T s w) = s.
Proof. unfold storage_of. by rewrite lookup_put_eq. Qed.

Lemma getStorage_put T s w : getStorage T (put T s w) = Return s.
Proof. unfold getStorage. by rewrite lookup_put_eq. Qed.

Lemma ensureStorage_eq T w :
  ensureStorage T w = (Return (), put T (storage_of T w) w, [], []).
Proof.
  unfold ensureStorage, storage_of.
  destruct (componentStorage w !! T) eqn:E; simpl.
  - rewrite (hasStorage_Some _ _ _ E). simpl. by rewrite put_same.
  - by rewrite (hasStorage_None _ _ E).
Qed.

Lemma has_eq T e w : has T e w = Return (contains e (storage_of T w)).
Proof.
  unfold has, getStorage, storage_of.
  destruct (componentStorage w !! T) eqn:E; simpl.
  - by rewrite (hasStorage_Some _ _ _ E).
  - rewrite (hasStorage_None _ _ E). simpl. unfold contains. simpl.
    by rewrite lookup_empty.
Qed.

Lemma on_storage_put T s f w :
  on_storage T f (put T s w) = (Return (), put T (f s) w, [], []).
Proof. unfold on_storage. rewrite getStorage_put. by rewrite put_put. Qed.

Lemma on_phase_eq p T w :
  on_phase p T w = (Return (T, p), put T (storage_of T w) w, [], []).
Proof.
  unfold on_phase. unfold_M. rewrite ensureStorage_eq.
  by rewrite getStorage_put.
Qed.

Lemma subscribers_put p T s w :
  subscribers p T (put T s w) = callbacks (dispatcher p s).
Proof. unfold subscribers. by rewrite lookup_put_eq. Qed.

Lemma publish_put p T s e w :
  let d := delivery p T e (put T s w) in
  publish (T, p) e (put T s w) =
  (outcome d, world_after d,
   [ {| ev_phase := p; ev_type := T; ev_world := put T s w; ev_entity := e |} ],
   created d).
Proof.
  unfold publish, delivery. simpl. rewrite getStorage_put.
  by rewrite subscribers_put.
Qed.

(** ** What the subscribers leave behind *)

Lemma hash_order_lookup {A} (m : gmap N A) (item : N * A) :
  item ∈ hash_order A m ↔ m !! item.1 = Some item.2.
Proof.
  rewrite (hash_order_perm A m). destruct item as [k x].
  apply elem_of_map_to_list.
Qed.

Lemma hash_order_empty {A} : hash_order A ∅ = [].
Proof. apply Permutation_nil_r. rewrite hash_order_perm. by rewrite map_to_list_empty. Qed.

Lemma notified_trans p T e w w' w'' :
  notified p T e w w' → notified p T e w' w'' → notified p T e w w''.
Proof.
  intros Hw' Hw''. induction Hw'' as [|w'' id cb _ IH Hcb]; [done|].
  by eapply notified_call.
Qed.

(** A property of worlds that every call of a subscriber preserves holds of
    every world the calls lead to. *)
Lemma notified_inv (P : World Component Callback → Prop) p T e w :
  P w →
  (∀ w' id cb, notified p T e w w' → P w' → subscribers p T w' !! id = Some cb →
               P (world_after (invoke cb w' e))) →
  ∀ w', notified p T e w w' → P w'.
Proof.
  intros Hw Hstep w' Hw'. induction Hw' as [|w' id cb Hw' IH Hcb]; [done|].
  by eapply Hstep.
Qed.

Lemma still_valid_same id (tbl : gmap N Callback) cb :
  tbl !! id = Some cb → still_valid id tbl tbl = true.
Proof. intros Hcb. apply bool_decide_eq_true. split; [eauto|done]. Qed.

(** The loop of [publish] leads from world to world by calls of
    subscribers; a property of the world and of the identifiers issued that
    each call preserves holds when the loop is left, however it is left. *)
Lemma deliver_ind p T e w0 (P : World Component Callback → list Entity → Prop) pending w cs :
  notified p T e w0 w → P w cs →
  (∀ w' cs' id cb, notified p T e w0 w' → P w' cs' → subscribers p T w' !! id = Some cb →
                   P (world_after (invoke cb w' e)) (cs' ++ created (invoke cb w' e))) →
  notified p T e w0 (world_after (deliver (T, p) e pending w)) ∧
  P (world_after (deliver (T, p) e pending w)) (cs ++ created (deliver (T, p) e pending w)).
Proof.
  intros Hw HP Hstep. revert w cs Hw HP.
  induction pending as [|id pending IH]; intros w cs Hw HP; cbn [deliver fst snd].
  - simpl_result. by rewrite app_nil_r.
  - destruct (subscribers p T w !! id) as [cb|] eqn:Hcb; [|by apply IH].
    pose proof (notified_call p T e w0 w id cb Hw Hcb) as Hw'.
    pose proof (Hstep w cs id cb Hw HP Hcb) as HP'.
    cbv zeta. destruct (outcome (invoke cb w e)) as [[]|f]; simpl_result; [|done].
    destruct (still_valid id _ _); simpl_result; [|done].
    destruct (IH _ _ Hw' HP') as [Hn HPn].
    by rewrite app_assoc.
Qed.

Lemma deliver_fired p T e pending w : fired (deliver (T, p) e pending w) = [].
Proof.
  revert w. induction pending as [|id pending IH]; intros w; cbn [deliver fst snd]; [done|].
  destruct (subscribers p T w !! id) as [cb|]; [|apply IH]. cbv zeta.
  destruct (outcome (invoke cb w e)); [|done]. by destruct (still_valid _ _ _).
Qed.

Lemma delivery_notified p T e w : notified p T e w (world_after (delivery p T e w)).
Proof.
  apply (deliver_ind p T e w (λ _ _, True) _ w []); [constructor|done|done].
Qed.

Lemma delivery_ind (P : World Component Callback → Prop) p T e w :
  P w →
  (∀ w' id cb, notified p T e w w' → P w' → subscribers p T w' !! id = Some cb →
               P (world_after (invoke cb w' e))) →
  P (world_after (delivery p T e w)).
Proof.
  intros Hw Hstep. eapply notified_inv; [exact Hw|exact Hstep|apply delivery_notified].
Qed.

Lemma delivery_created_ind (P : World Component Callback → list Entity → Prop) p T e w cs :
  P w cs →
  (∀ w' cs' id cb, P w' cs' → subscribers p T w' !! id = Some cb →
                   P (world_after (invoke cb w' e)) (cs' ++ created (invoke cb w' e))) →
  P (world_after (delivery p T e w)) (cs ++ created (delivery p T e w)).
Proof.
  intros HP Hstep.
  apply (deliver_ind p T e w P _ w cs); [constructor|done|].
  intros w' cs' id cb _ HP' Hcb. by apply (Hstep w' cs' id cb).
Qed.

(** The loop returns when the callbacks it calls return and leave its
    iterator valid. *)
Lemma deliver_returns p T e w0 pending w :
  notified p T e w0 w →
  (∀ w' id cb, notified p T e w0 w' → subscribers p T w' !! id = Some cb →
     outcome (invoke cb w' e) = Return () ∧
     still_valid id (subscribers p T w') (subscribers p T (world_after (invoke cb w' e)))
     = true) →
  outcome (deliver (T, p) e pending w) = Return ().
Proof.
  intros Hw Hstep. revert w Hw.
  induction pending as [|id pending IH]; intros w Hw; cbn [deliver fst snd]; [done|].
  destruct (subscribers p T w !! id) as [cb|] eqn:Hcb; [|by apply IH].
  destruct (Hstep w id cb Hw Hcb) as [Hret Hvalid]. cbv zeta. rewrite Hret, Hvalid.
  simpl_result. apply IH. by eapply notified_call.
Qed.

Lemma delivery_returns p T e w :
  (∀ w' id cb, notified p T e w w' → subscribers p T w' !! id = Some cb →
     outcome (invoke cb w' e) = Return () ∧
     still_valid id (subscribers p T w') (subscribers p T (world_after (invoke cb w' e)))
     = true) →
  outcome (delivery p T e w) = Return ().
Proof. intros Hstep. apply (deliver_returns p T e w); [constructor|done]. Qed.

(** An exception that leaves the loop has left one of the callbacks, unless
    the behaviour of the loop is undefined. *)
Lemma deliver_raises p T e w0 pending w f :
  notified p T e w0 w →
  outcome (deliver (T, p) e pending w) = Raise f →
  f = undefined ∨
  ∃ w' id cb, notified p T e w0 w' ∧ subscribers p T w' !! id = Some cb ∧
              outcome (invoke cb w' e) = Raise f.
Proof.
  revert w. induction pending as [|id pending IH]; intros w Hw; cbn [deliver fst snd]; [done|].
  destruct (subscribers p T w !! id) as [cb|] eqn:Hcb; [|by apply IH].
  cbv zeta. destruct (outcome (invoke cb w e)) as [[]|f'] eqn:Hout.
  - destruct (still_valid id _ _); simpl_result.
    + apply IH. by eapply notified_call.
    + intros [= <-]. by left.
  - simpl_result. intros [= <-]. right. eauto 6.
Qed.

Lemma delivery_no_subscribers p T e w :
  subscribers p T w = ∅ → delivery p T e w = (Return (), w, [], []).
Proof. intros E. unfold delivery. by rewrite E, hash_order_empty. Qed.

Lemma deliver_observers p T e pending w :
  observers p T e w →
  outcome (deliver (T, p) e pending w) = Return () ∧
  world_after (deliver (T, p) e pending w) = w.
Proof.
  intros Hobs. induction pending as [|id pending IH]; cbn [deliver fst snd]; [done|].
  destruct (subscribers p T w !! id) as [cb|] eqn:Hcb; [|done].
  destruct (Hobs id cb Hcb) as [Hret Hsame]. cbv zeta.
  rewrite Hret, Hsame, (still_valid_same id _ cb Hcb). by simpl_result.
Qed.

Lemma delivery_observers p T e w :
  observers p T e w →
  outcome (delivery p T e w) = Return () ∧ world_after (delivery p T e w) = w.
Proof. apply deliver_observers. Qed.

(** With one subscriber, the loop is the call of it. *)
Lemma delivery_single p T e w :
  as_the_only_subscriber p T e w (delivery p T e w).
Proof.
  intros id cb Htbl. unfold delivery. rewrite Htbl.
  assert (Hl : hash_order _ ({[id := cb]} : gmap N Callback) = [(id, cb)]).
  { apply Permutation_singleton_r. rewrite hash_order_perm.
    by rewrite map_to_list_singleton. }
  rewrite Hl. cbn [fmap list_fmap deliver fst snd]. rewrite Htbl, lookup_singleton_eq.
  cbv zeta. destruct (outcome (invoke cb w e)) as [[]|f] eqn:Ho.
  - destruct (still_valid _ _ _) eqn:Hv; simpl_result; rewrite ?app_nil_r;
      (split; [done|split; [done|split; [done|]]]); [done|].
    intros _ Hv'. congruence.
  - simpl_result. split; [done|]. split; [done|]. split; [done|]. done.
Qed.

(** ** The member functions, in closed form *)

Lemma get_eq T e w : get T e w = at_ e (storage_of T w).
Proof.
  unfold get, getStorage, storage_of.
  destruct (componentStorage w !! T) eqn:E; simpl; [done|].
  unfold at_. simpl. by rewrite lookup_empty.
Qed.

Lemma assign_eq T e c w :
  let w1 := put T (insert_or_assign e c (storage_of T w)) w in
  let p := if contains e (storage_of T w) then OnUpdate else OnCreate in
  let d := delivery p T e w1 in
  assign T e c w =
  (outcome d, world_after d,
   [ {| ev_phase := p; ev_type := T; ev_world := w1; ev_entity := e |} ], created d).
Proof.
  intros w1 p d. unfold assign. unfold_M.
  rewrite ensureStorage_eq, has_eq, storage_of_put, on_storage_put.
  subst d p. destruct (contains e (storage_of T w)); simpl;
    unfold onUpdate, onCreate; rewrite on_phase_eq, storage_of_put, put_put;
    fold w1; unfold w1 at 1; rewrite publish_put; fold w1; cbv zeta;
    by destruct (delivery _ T e w1) as [[[[[]|f] w'] l] cs].
Qed.

Lemma update_eq T e (f : Component → Component) w :
  (s ← lift (getStorage T);
   component ← lift (λ _, at_ e s);
   on_storage T (store e (f component)) ;;
   d ← onUpdate T;
   publish d e) w =
  match items (storage_of T w) !! e with
  | Some c =>
      let w1 := put T (store e (f c) (storage_of T w)) w in
      let d := delivery OnUpdate T e w1 in
      (outcome d, world_after d,
       [ {| ev_phase := OnUpdate; ev_type := T; ev_world := w1; ev_entity := e |} ],
       created d)
  | None => (Raise out_of_range, w, [], [])
  end.
Proof.
  unfold_M. unfold getStorage, storage_of.
  destruct (componentStorage w !! T) as [s|] eqn:E; simpl.
  - unfold at_. destruct (items s !! e) as [c|] eqn:Ee; simpl; [|done].
    rewrite <- (put_same _ _ _ E) at 1. rewrite on_storage_put.
    unfold onUpdate. rewrite on_phase_eq, storage_of_put, put_put.
    rewrite publish_put. cbv zeta.
    by destruct (delivery _ T e _) as [[[[[]|f'] w'] l] cs].
  - by rewrite lookup_empty.
Qed.

Lemma transform_eq T e f w :
  transform T e f w =
  match items (storage_of T w) !! e with
  | Some c =>
      let w1 := put T (store e (f c) (storage_of T w)) w in
      let d := delivery OnUpdate T e w1 in
      (outcome d, world_after d,
       [ {| ev_phase := OnUpdate; ev_type := T; ev_world := w1; ev_entity := e |} ],
       created d)
  | None => (Raise out_of_range, w, [], [])
  end.
Proof. apply update_eq. Qed.

Lemma patch_eq T e f w :
  patch T e f w =
  match items (storage_of T w) !! e with
  | Some c =>
      let w1 := put T (store e (f c) (storage_of T w)) w in
      let d := delivery OnUpdate T e w1 in
      (outcome d, world_after d,
       [ {| ev_phase := OnUpdate; ev_type := T; ev_world := w1; ev_entity := e |} ],
       created d)
  | None => (Raise out_of_range, w, [], [])
  end.
Proof. apply update_eq. Qed.

Lemma remove_eq T e w :
  let w0 := put T (storage_of T w) w in
  let d := delivery OnRemove T e w0 in
  let ev := {| ev_phase := OnRemove; ev_type := T; ev_world := w0; ev_entity := e |} in
  remove T e w =
  match outcome d with
  | Return _ =>
      match componentStorage (world_after d) !! T with
      | Some s' => (Return (), put T (erase e s') (world_after d), [ev], created d)
      | None => (Raise out_of_range, world_after d, [ev], created d)
      end
  | Raise f => (Raise f, world_after d, [ev], created d)
  end.
Proof.
  intros w0 d ev. unfold remove. unfold_M. unfold onRemove.
  rewrite on_phase_eq. fold w0. unfold w0 at 1. rewrite publish_put.
  fold w0. cbv zeta. fold d. unfold_M.
  destruct d as [[[[[]|f] w'] l] cs]; cbn [fst snd]; [|done].
  unfold on_storage, getStorage.
  destruct (componentStorage w' !! T); cbn [fst snd app]; by rewrite app_nil_r.
Qed.

(** ** assign *)

Lemma contains_lookup e s : contains e s = true ↔ ∃ c, items s !! e = Some c.
Proof. unfold contains. rewrite bool_decide_eq_true. reflexivity. Qed.

Lemma contains_new e : contains e (@Storage_new Component Callback) = false.
Proof. unfold contains, Storage_new; simpl. by rewrite lookup_empty. Qed.

Lemma get_put T e s w : get T e (put T s w) = at_ e s.
Proof. by rewrite get_eq, storage_of_put. Qed.

Lemma has_true_contains T e w :
  has T e w = Return true ↔ contains e (storage_of T w) = true.
Proof. rewrite has_eq. split; [by intros [= ->]|by intros ->]. Qed.

Lemma subscribers_put_storage_of p T w (f : Storage Component Callback → Storage Component Callback) :
  (∀ s, dispatcher p (f s) = dispatcher p s) →
  subscribers p T (put T (f (storage_of T w)) w) = subscribers p T w.
Proof.
  intros Hf. rewrite subscribers_put, Hf. unfold subscribers, storage_of.
  destruct (componentStorage w !! T); [done|by destruct p].
Qed.

(** C1 (amended): [assign<T>(e, v)] stores [v] and then publishes exactly
    one event, for [T] and [e]: the update event of [T] if [e] held [T] when
    [assign] was called, the create event otherwise.  The subscribers are
    called after the value is stored, so they see [get<T>(e)] give [v], and
    the world [assign] leaves is the one their calls lead to.  When none of
    the calls made changes what [get<T>(e)] gives, [get<T>(e)] gives [v]
    after [assign], whether [assign] returned or a subscriber threw, and
    [has<T>(e)] is true: a second [assign<T>(e, v2)] then publishes the
    update event and makes [get<T>(e)] give [v2].  [assign] returns when
    the subscribers it calls return and leave the iterator of the loop that
    calls them valid; an exception that leaves [assign] has left one of
    them.  With one subscriber, [assign] leaves the world that the call of
    it leaves, and throws what it throws. *)
Theorem assign_stores_and_publishes_once T e (v : Component) w :
  let r := assign T e v w in
  let p := match has T e w with Return true => OnUpdate | _ => OnCreate end in
  ∃ w1,
    fired r = [ {| ev_phase := p; ev_type := T; ev_world := w1; ev_entity := e |} ] ∧
    get T e w1 = Return v ∧
    notified p T e w1 (world_after r) ∧
    ((∀ w' id cb, notified p T e w1 w' → subscribers p T w' !! id = Some cb →
                  get T e w' = Return v →
                  get T e (world_after (invoke cb w' e)) = Return v) →
     outcome r ≠ Raise undefined →
     get T e (world_after r) = Return v ∧ has T e (world_after r) = Return true) ∧
    ((∀ w' id cb, notified p T e w1 w' → subscribers p T w' !! id = Some cb →
                  outcome (invoke cb w' e) = Return () ∧
                  still_valid id (subscribers p T w')
                              (subscribers p T (world_after (invoke cb w' e))) = true) →
     outcome r = Return ()) ∧
    (∀ f, outcome r = Raise f →
          f = undefined ∨
          ∃ w' id cb, notified p T e w1 w' ∧ subscribers p T w' !! id = Some cb ∧
                      outcome (invoke cb w' e) = Raise f) ∧
    as_the_only_subscriber p T e w1 r.
Proof.
  intros r p. subst r. rewrite assign_eq. cbv zeta. simpl_result.
  assert (Hp : (if contains e (storage_of T w) then OnUpdate else OnCreate) = p).
  { subst p. rewrite has_eq. by destruct (contains e (storage_of T w)). }
  rewrite Hp. set (w1 := put T (insert_or_assign e v (storage_of T w)) w).
  assert (Hget : get T e w1 = Return v).
  { unfold w1. rewrite get_put. unfold at_, insert_or_assign; simpl.
    by rewrite lookup_insert_eq. }
  exists w1. split; [done|]. split; [done|]. split; [apply delivery_notified|].
  split; [|split; [|split]].
  - intros Hkeep _.
    assert (Hafter : get T e (world_after (delivery p T e w1)) = Return v).
    { apply (delivery_ind (λ w', get T e w' = Return v)); [done|].
      intros w' id cb Hw' Hv Hcb. by apply (Hkeep w' id cb). }
    split; [done|]. rewrite get_eq in Hafter. apply has_true_contains, contains_lookup.
    unfold at_ in Hafter. destruct (items _ !! e); [eauto|done].
  - apply delivery_returns.
  - intros f. apply deliver_raises. constructor.
  - intros id cb Htbl. cbv zeta. simpl_result. by apply delivery_single.
Qed.

(** ** destroyEntity *)

Lemma erase_erase e s : erase e (erase e s) = erase e s.
Proof.
  unfold erase; simpl. f_equal.
  - apply delete_delete_eq.
  - set_solver.
Qed.

Lemma contains_erase e s : contains e (erase e s) = false.
Proof.
  unfold contains, erase; simpl. rewrite lookup_delete_eq.
  apply bool_decide_eq_false. intros [? ?]; discriminate.
Qed.

Lemma size_without (X : gset Entity) e :
  size (X ∖ {[e]}) = size X - (if decide (e ∈ X) then 1 else 0).
Proof.
  destruct (decide (e ∈ X)) as [Hin|Hout].
  - rewrite size_difference by set_solver. by rewrite size_singleton.
  - rewrite difference_disjoint_L by set_solver. lia.
Qed.
Lemma size_with (X : gset Entity) e :
  size X = size (X ∖ {[e]}) + (if decide (e ∈ X) then 1 else 0).
Proof.
  destruct (decide (e ∈ X)) as [Hin|Hout].
  - rewrite (union_difference_L {[e]} X) at 1 by set_solver.
    rewrite size_union by set_solver. rewrite size_singleton. lia.
  - rewrite difference_disjoint_L by set_solver. lia.
Qed.

Lemma erase_absent e s : items s !! e = None → e ∉ st_entities s → erase e s = s.
Proof.
  intros Hnone Hout. destruct s as [its ents dc du dr]. unfold erase; simpl in *. f_equal.
  - by apply delete_id.
  - apply difference_disjoint_L. set_solver.
Qed.

(** C3 (amended): [destroyEntity(e)] never fails and publishes no event.
    It erases [e] from the mapping and from the membership set of every
    storage there is, creating and dropping none and leaving the
    subscriptions, and from the set of live entities, and leaves the other
    entities and their components alone: after it [has<T>(e)] is false for
    every [T], and [size()] is less by exactly one if [e] was live and the
    same if it was not.  Destroying [e] once more changes nothing.
    Destroying an entity that is not live changes nothing either if no
    storage has it; but what a storage holds for an entity that was never
    created is erased like anything else. *)
Theorem destroyEntity_erases_everywhere e w :
  let r := destroyEntity e w in
  let w' := world_after r in
  outcome r = Return () ∧
  fired r = [] ∧
  (e ∉ entities w') ∧
  (∀ T, hasStorage T w' = hasStorage T w) ∧
  (∀ p T, subscribers p T w' = subscribers p T w) ∧
  (∀ T s', componentStorage w' !! T = Some s' →
           items s' !! e = None ∧ e ∉ st_entities s') ∧
  (∀ T, has T e w' = Return false) ∧
  (∀ T e', e' ≠ e → has T e' w' = has T e' w ∧ get T e' w' = get T e' w) ∧
  (∀ e', e' ≠ e → e' ∈ entities w' ↔ e' ∈ entities w) ∧
  nextEntityId w' = nextEntityId w ∧
  world_size w = world_size w' + (if decide (e ∈ entities w) then 1 else 0) ∧
  destroyEntity e w' = (Return (), w', [], []) ∧
  ((e ∉ entities w) →
   (∀ T s, componentStorage w !! T = Some s → items s !! e = None ∧ e ∉ st_entities s) →
   w' = w).
Proof.
  intros r w'. subst r w'. unfold destroyEntity. simpl_result.
  assert (Hstores : ∀ T s', (erase e <$> componentStorage w) !! T = Some s' →
                            ∃ s, s' = erase e s).
  { intros T s'. rewrite lookup_fmap.
    destruct (componentStorage w !! T) as [s|]; simpl; [|done].
    intros [= <-]. eauto. }
  split; [done|]. split; [done|]. split; [simpl; set_solver|].
  split; [|split; [|split; [|split; [|split; [|split; [|split; [|split; [|split]]]]]]]].
  - intros T. destruct (componentStorage w !! T) as [s|] eqn:E.
    + rewrite (hasStorage_Some T w s E).
      apply (hasStorage_Some _ _ (erase e s)). simpl. by rewrite lookup_fmap, E.
    + rewrite (hasStorage_None T w E).
      apply hasStorage_None. simpl. by rewrite lookup_fmap, E.
  - intros p T. unfold subscribers. simpl. rewrite lookup_fmap.
    destruct (componentStorage w !! T) as [s|]; simpl; [|done]. by destruct p.
  - intros T s' Hs'. apply Hstores in Hs' as [s ->]. simpl. split.
    + apply lookup_delete_eq.
    + set_solver.
  - intros T. rewrite has_eq. f_equal. unfold storage_of; simpl.
    destruct ((erase e <$> componentStorage w) !! T) as [s'|] eqn:E; simpl.
    + apply Hstores in E as [s ->]. apply contains_erase.
    + unfold contains; simpl. by rewrite lookup_empty.
  - intros T e' Hne. rewrite !has_eq, !get_eq. unfold storage_of; simpl.
    rewrite lookup_fmap. destruct (componentStorage w !! T) as [s|]; simpl; [|done].
    unfold contains, at_, erase; simpl. by rewrite lookup_delete_ne.
  - intros e' Hne. simpl. set_solver.
  - done.
  - unfold world_size; simpl. apply size_with.
  - simpl. do 3 f_equal. f_equal.
    + set_solver.
    + rewrite <- map_fmap_compose. apply map_fmap_ext.
      intros T s _. apply erase_erase.
  - intros Hout Hnone. destruct w as [n ents stores]. simpl in *. f_equal.
    + apply difference_disjoint_L. set_solver.
    + apply map_eq. intros T. rewrite lookup_fmap.
      destruct (stores !! T) as [s|] eqn:Es; simpl; [|done]. f_equal.
      destruct (Hnone T s Es). by apply erase_absent.
Qed.

(** ** What a member function leaves alone *)

Lemma storage_of_put_ne T T' s w : T ≠ T' → storage_of T' (put T s w) = storage_of T' w.
Proof. intros Hne. unfold storage_of. by rewrite lookup_put, decide_False. Qed.

Lemma subscribers_put_ne p T T' s w :
  T ≠ T' → subscribers p T' (put T s w) = subscribers p T' w.
Proof. intros Hne. unfold subscribers. by rewrite lookup_put, decide_False. Qed.

(** A change of the storage of [T] that touches the entry of [e] only. *)
Lemma put_frame T e (g : Storage Component Callback → Storage Component Callback) w :
  (∀ s e', e' ≠ e → items (g s) !! e' = items s !! e') →
  (∀ s q, dispatcher q (g s) = dispatcher q s) →
  let w1 := put T (g (storage_of T w)) w in
  (∀ T' e', (T', e') ≠ (T, e) →
            get T' e' w1 = get T' e' w ∧ has T' e' w1 = has T' e' w) ∧
  entities w1 = entities w ∧ nextEntityId w1 = nextEntityId w ∧
  (∀ q T', subscribers q T' w1 = subscribers q T' w).
Proof.
  intros Hitems Hdisp w1. split; [|split; [done|split; [done|]]].
  - intros T' e' Hne. subst w1. rewrite !get_eq, !has_eq.
    destruct (decide (T = T')) as [<-|HT].
    + rewrite storage_of_put. unfold at_, contains.
      rewrite Hitems; [done|]. congruence.
    + by rewrite storage_of_put_ne.
  - intros q T'. subst w1. destruct (decide (T = T')) as [<-|HT].
    + by apply subscribers_put_storage_of.
    + by apply subscribers_put_ne.
Qed.

(** ** remove *)

Lemma erase_Storage_new e : erase e (@Storage_new Component Callback) = Storage_new.
Proof.
  unfold erase, Storage_new; simpl.
  rewrite delete_empty.
  by assert ((∅ : gset Entity) ∖ {[e]} = ∅) as -> by set_solver.
Qed.

Lemma contains_storage_of_put T e s w :
  has T e (put T s w) = Return (contains e s).
Proof. by rewrite has_eq, storage_of_put. Qed.


Lemma hasStorage_put T T' s w :
  hasStorage T' (put T s w) = true ↔ T = T' ∨ hasStorage T' w = true.
Proof.
  rewrite !hasStorage_true, lookup_put. destruct (decide (T = T')) as [->|Hne].
  - split; eauto.
  - split; [eauto|]. by intros [?|?].
Qed.

Lemma storage_of_new T w : hasStorage T w = false → storage_of T w = Storage_new.
Proof.
  intros Hno. unfold storage_of, hasStorage in *. destruct (componentStorage w !! T); [|done].
  apply bool_decide_eq_false in Hno. exfalso. eauto.
Qed.

Lemma put_storage_of T w : hasStorage T w = true → put T (storage_of T w) w = w.
Proof. intros [s Hs]%hasStorage_true. apply put_same. unfold storage_of. by rewrite Hs. Qed.

(** C4 (amended): [remove<T>(e)] publishes exactly one event, the remove
    event of [T] for [e], before anything is erased: the subscribers are
    called in the world as it was, but for the storage of [T], which is
    created if there was none, and [has] and [get] give them what they gave
    before the call.  When the loop that calls them returns, [remove]
    returns, and the world it leaves is the one their calls led to with [e]
    erased from the mapping and from the membership set of the storage of
    [T], and nothing else changed, so that [has<T>(e)] is false.  When a
    subscriber throws, the exception leaves [remove] and [remove] erases
    nothing.  The loop returns when the subscribers it calls return and
    leave its iterator valid; with one subscriber, the loop leaves the
    world that the call of it leaves.  For a type without storage, [remove] leaves
    behind the world with a new, empty storage for [T] and nothing else
    changed, and its event goes to no subscriber. *)
Theorem remove_publishes_then_erases T e w :
  let r := remove T e w in
  let w0 := put T (storage_of T w) w in
  let d := delivery OnRemove T e w0 in
  fired r = [ {| ev_phase := OnRemove; ev_type := T; ev_world := w0; ev_entity := e |} ] ∧
  (∀ T' e', has T' e' w0 = has T' e' w ∧ get T' e' w0 = get T' e' w) ∧
  notified OnRemove T e w0 (world_after d) ∧
  (outcome d = Return () → hasStorage T (world_after d) = true →
   outcome r = Return () ∧
   world_after r = put T (erase e (storage_of T (world_after d))) (world_after d) ∧
   has T e (world_after r) = Return false ∧
   (e ∉ st_entities (storage_of T (world_after r))) ∧
   (∀ T' e', (T', e') ≠ (T, e) →
             has T' e' (world_after r) = has T' e' (world_after d) ∧
             get T' e' (world_after r) = get T' e' (world_after d)) ∧
   entities (world_after r) = entities (world_after d) ∧
   (∀ q T', subscribers q T' (world_after r) = subscribers q T' (world_after d))) ∧
  (∀ f, outcome d = Raise f → outcome r = Raise f ∧ world_after r = world_after d) ∧
  ((∀ w' id cb, notified OnRemove T e w0 w' → subscribers OnRemove T w' !! id = Some cb →
                hasStorage T w' = true →
                hasStorage T (world_after (invoke cb w' e)) = true) →
   hasStorage T (world_after d) = true) ∧
  ((∀ w' id cb, notified OnRemove T e w0 w' → subscribers OnRemove T w' !! id = Some cb →
                outcome (invoke cb w' e) = Return () ∧
                still_valid id (subscribers OnRemove T w')
                            (subscribers OnRemove T (world_after (invoke cb w' e))) = true) →
   outcome d = Return ()) ∧
  (hasStorage T w = false →
   subscribers OnRemove T w0 = ∅ ∧ outcome r = Return () ∧ created r = [] ∧
   world_after r = put T Storage_new w) ∧
  as_the_only_subscriber OnRemove T e w0 d.
Proof.
  intros r w0 d. subst r. rewrite remove_eq. fold w0 d.
  split; [|split; [|split; [apply delivery_notified|
    split; [|split; [|split; [|split; [|split; [|apply delivery_single]]]]]]]].
  - destruct (outcome d) as [[]|f]; [|done].
    by destruct (componentStorage (world_after d) !! T).
  - intros T' e'. unfold w0. rewrite !has_eq, !get_eq.
    destruct (decide (T = T')) as [<-|Hne].
    + by rewrite storage_of_put.
    + by rewrite storage_of_put_ne.
  - intros Hret [s' Hs']%hasStorage_true. rewrite Hret, Hs'. simpl_result.
    assert (Es' : storage_of T (world_after d) = s') by (by apply storage_of_Some).
    rewrite Es'. split; [done|]. split; [done|].
    destruct (put_frame T e (erase e) (world_after d)) as (Hcomp & Hlive & _ & Hsubs).
    { intros s e' Hne. unfold erase; simpl. by rewrite lookup_delete_ne. }
    { intros s q. by destruct q. }
    rewrite Es' in Hcomp, Hlive, Hsubs.
    split; [|split; [|split; [|split]]].
    + rewrite contains_storage_of_put. f_equal. apply contains_erase.
    + rewrite storage_of_put. unfold erase; simpl. set_solver.
    + intros T' e' Hne. destruct (Hcomp T' e' Hne). by split.
    + done.
    + done.
  - intros f Hf. by rewrite Hf.
  - intros Hkeep. apply (delivery_ind (λ w', hasStorage T w' = true)).
    + apply hasStorage_put. by left.
    + intros w' id cb Hw' Hst Hcb. by apply (Hkeep w' id cb).
  - apply delivery_returns.
  - intros Hno.
    assert (Enone : subscribers OnRemove T w0 = ∅).
    { unfold w0. by rewrite subscribers_put, (storage_of_new T w Hno). }
    split; [done|]. unfold d. rewrite (delivery_no_subscribers _ _ _ _ Enone). simpl_result.
    unfold w0. rewrite lookup_put_eq, put_put, (storage_of_new T w Hno). simpl_result.
    by rewrite erase_Storage_new.
Qed.

(** ** has, get, transform and patch *)


(** ** A new world, and subscriptions *)

Lemma connect_at_put p T f s w :
  connect_at (T, p) f (put T s w) =
  (Return (connect f (dispatcher p s)).1,
   put T (set_dispatcher p (connect f (dispatcher p s)).2 s) w, [], []).
Proof.
  unfold connect_at. unfold_M. simpl. rewrite getStorage_put.
  by rewrite on_storage_put.
Qed.

(** X2: a new world has no entities, and [has<T>(e)] is false in it for
    every [T] and [e]. *)
Theorem World_new_is_empty T e :
  world_size (@World_new Component Callback) = 0 ∧
  has T e (@World_new Component Callback) = Return false.
Proof. split; [apply size_empty|]. by rewrite has_eq. Qed.



(** ** Mapping and membership set of a storage *)

Lemma in_sync_new : in_sync (@Storage_new Component Callback).
Proof. unfold in_sync, Storage_new; simpl. apply dom_empty_L. Qed.

Lemma in_sync_insert_or_assign e c s : in_sync s → in_sync (insert_or_assign e c s).
Proof. unfold in_sync, insert_or_assign; simpl. intros <-. apply dom_insert_L. Qed.

Lemma in_sync_erase e s : in_sync s → in_sync (erase e s).
Proof. unfold in_sync, erase; simpl. intros <-. apply dom_delete_L. Qed.

Lemma in_sync_store e c c' s :
  items s !! e = Some c → in_sync s → in_sync (store e c' s).
Proof.
  unfold in_sync, store; simpl. intros He <-. rewrite dom_insert_L.
  apply subseteq_union_1_L, singleton_subseteq_l, elem_of_dom. eauto.
Qed.

Lemma in_sync_set_dispatcher p d s : in_sync s → in_sync (set_dispatcher p d s).
Proof. done. Qed.

Lemma in_sync_storage_of T w : storages_in_sync w → in_sync (storage_of T w).
Proof.
  intros Hw. unfold storage_of.
  destruct (componentStorage w !! T) as [s|] eqn:E; simpl; [by eapply Hw|].
  apply in_sync_new.
Qed.

Lemma storages_in_sync_put T s w :
  in_sync s → storages_in_sync w → storages_in_sync (put T s w).
Proof.
  intros Hs Hw T' s'. rewrite lookup_put. case_decide.
  - by intros [= <-].
  - apply Hw.
Qed.

Lemma storages_in_sync_new : storages_in_sync (@World_new Component Callback).
Proof. intros T s. unfold World_new; simpl. by rewrite lookup_empty. Qed.

Section InSync.

(** Subscribers reach the storages through the member functions only. *)
Hypothesis invoke_in_sync :
  ∀ cb w e, storages_in_sync w → storages_in_sync (world_after (invoke cb w e)).

Lemma delivery_in_sync p T e w :
  storages_in_sync w → storages_in_sync (world_after (delivery p T e w)).
Proof.
  intros Hw. apply delivery_ind; [done|]. intros w' id cb _ Hw' _. by apply invoke_in_sync.
Qed.

Lemma call_in_sync (c : Call Component Callback) w :
  storages_in_sync w → storages_in_sync (world_after (call c w)).
Proof.
  intros Hw. pose proof (in_sync_storage_of) as Hof.
  destruct c as [T e c|T e f|T e f|T e|T e|T e| | |e|Ts|p T|p T f|p T id]; simpl.
  - rewrite assign_eq. cbv zeta. simpl_result.
    apply delivery_in_sync, storages_in_sync_put; [|done].
    by apply in_sync_insert_or_assign, Hof.
  - rewrite transform_eq. destruct (items (storage_of T w) !! e) as [c|] eqn:E; [|done].
    cbv zeta. simpl_result. apply delivery_in_sync, storages_in_sync_put; [|done].
    eapply in_sync_store; [done|]. by apply Hof.
  - rewrite patch_eq. destruct (items (storage_of T w) !! e) as [c|] eqn:E; [|done].
    cbv zeta. simpl_result. apply delivery_in_sync, storages_in_sync_put; [|done].
    eapply in_sync_store; [done|]. by apply Hof.
  - unfold_M. by destruct (get T e w).
  - unfold_M. by destruct (has T e w).
  - rewrite remove_eq. cbv zeta.
    assert (Hn : storages_in_sync
                   (world_after (delivery OnRemove T e (put T (storage_of T w) w)))).
    { apply delivery_in_sync, storages_in_sync_put; [by apply Hof|done]. }
    destruct (outcome _) as [[]|f]; [|done].
    destruct (componentStorage _ !! T) as [s'|] eqn:E; [|done].
    simpl_result. apply storages_in_sync_put; [|done]. apply in_sync_erase. by eapply Hn.
  - done.
  - done.
  - intros T s'. unfold destroyEntity, world_after; simpl. rewrite lookup_fmap.
    destruct (componentStorage w !! T) as [s|] eqn:E; simpl; [|done].
    intros [= <-]. apply in_sync_erase. by eapply Hw.
  - unfold_M. by destruct (view Ts w).
  - unfold_M. rewrite on_phase_eq. apply storages_in_sync_put; [by apply Hof|done].
  - unfold_M. rewrite on_phase_eq, connect_at_put. simpl.
    apply storages_in_sync_put; [|done]. by apply in_sync_set_dispatcher, Hof.
  - unfold_M. rewrite on_phase_eq. unfold disconnect_at. simpl.
    rewrite on_storage_put. simpl.
    apply storages_in_sync_put; [|done]. by apply in_sync_set_dispatcher, Hof.
Qed.

Lemma run_in_sync (calls : list (Call Component Callback)) w issued :
  storages_in_sync w → storages_in_sync (run calls w issued).1.
Proof.
  revert w issued. induction calls as [|c calls IH]; intros w issued Hw; simpl; [done|].
  apply IH. by apply call_in_sync.
Qed.

End InSync.

(** ** Loops and pack expansions *)

Lemma conjunction_pure {A} (b : A → bool) (g : A → Outcome bool) l :
  (∀ x, x ∈ l → g x = Return (b x)) → conjunction g l = Return (forallb b l).
Proof.
  induction l as [|x l IH]; intros Hg; simpl; [done|].
  rewrite (Hg x) by left. simpl. destruct (b x); simpl; [|done].
  apply IH. intros y Hy. apply Hg. by right.
Qed.

Lemma expand_ext {A B} (g g' : A → Outcome B) l :
  (∀ x, x ∈ l → g x = g' x) → expand g l = expand g' l.
Proof.
  induction l as [|x l IH]; intros Hg; simpl; [done|].
  rewrite (Hg x) by left. rewrite IH; [done|]. intros y Hy. apply Hg. by right.
Qed.

Lemma expand_pure {A B} (h : A → B) (g : A → Outcome B) l :
  (∀ x, x ∈ l → g x = Return (h x)) → expand g l = Return (h <$> l).
Proof.
  induction l as [|x l IH]; intros Hg; simpl; [done|].
  rewrite (Hg x) by left. simpl. rewrite IH; [done|].
  intros y Hy. apply Hg. by right.
Qed.

Lemma for_each_filter {A St} (body : A → St → Outcome St) (P : A → bool) (F : St → A → St) l :
  (∀ x (acc : St), x ∈ l → body x acc = Return (if P x then F acc x else acc)) →
  ∀ acc : St, for_each body l acc = Return (foldl F acc (filter P l)).
Proof.
  induction l as [|x l IH]; intros Hbody acc; simpl; [done|].
  rewrite (Hbody x) by left. simpl.
  assert (Hl : ∀ y (a : St), y ∈ l → body y a = Return (if P y then F a y else a))
    by (intros; apply Hbody; by right).
  rewrite (IH Hl). rewrite filter_cons.
  by destruct (P x).
Qed.

Lemma StronglySorted_filter {A} (R : relation A) (P : A → Prop) `{∀ x, Decision (P x)} l :
  StronglySorted R l → StronglySorted R (filter P l).
Proof.
  induction 1 as [|x l Hl IH Hx]; [constructor|].
  rewrite filter_cons. case_decide; [|done].
  constructor; [done|]. rewrite Forall_forall in Hx |- *.
  intros y Hy. apply Hx. apply list_elem_of_filter in Hy. tauto.
Qed.

(** ** Traversal of a set of entities *)

Lemma in_order_elem_of (X : gset Entity) e : e ∈ in_order X ↔ e ∈ X.
Proof. unfold in_order. rewrite merge_sort_Permutation. apply elem_of_elements. Qed.

Lemma in_order_NoDup (X : gset Entity) : NoDup (in_order X).
Proof. unfold in_order. rewrite merge_sort_Permutation. apply NoDup_elements. Qed.

Lemma in_order_sorted (X : gset Entity) : StronglySorted Entity_le (in_order X).
Proof. unfold in_order. apply StronglySorted_merge_sort; apply _. Qed.

Lemma in_order_length (X : gset Entity) : length (in_order X) = size X.
Proof. unfold in_order. by rewrite merge_sort_Permutation. Qed.

Lemma in_order_empty : in_order ∅ = [].
Proof. apply length_zero_iff_nil. rewrite in_order_length. apply size_empty. Qed.

(** Two ascending lists without repetition that have the same elements. *)
Lemma ascending_unique (l k : list Entity) :
  StronglySorted Entity_le l → StronglySorted Entity_le k →
  NoDup l → NoDup k → (∀ e, e ∈ l ↔ e ∈ k) → l = k.
Proof.
  intros Hl Hk Dl Dk Hlk. apply (StronglySorted_unique Entity_le); [done..|].
  by apply NoDup_Permutation.
Qed.

(** ** Construction of a view *)

Lemma View_new_lookup Ts (g : N → Storage Component Callback) T :
  storages (View_new Ts (g <$> Ts)) !! T =
  if decide (T ∈ Ts) then Some (g T) else None.
Proof.
  unfold View_new; simpl.
  cut (∀ m0 : gmap N (Storage Component Callback),
         foldl (λ m item, match m !! item.1 with
                          | Some _ => m
                          | None => <[item.1 := item.2]> m
                          end) m0 (zip Ts (g <$> Ts)) !! T =
         match m0 !! T with
         | Some x => Some x
         | None => if decide (T ∈ Ts) then Some (g T) else None
         end).
  { intros Hcut. rewrite Hcut. by rewrite lookup_empty. }
  induction Ts as [|a Ts IH]; intros m0.
  - simpl. by destruct (m0 !! T).
  - rewrite fmap_cons. cbn [zip_with foldl fst snd].
    rewrite IH. destruct (m0 !! a) as [sa|] eqn:Ea.
    + destruct (m0 !! T) eqn:ET; [done|].
      assert (T ≠ a) by congruence.
      destruct (decide (T ∈ Ts)).
      * by rewrite decide_True by (by right).
      * rewrite decide_False; [done|]. rewrite elem_of_cons. tauto.
    + rewrite lookup_insert. destruct (decide (a = T)) as [->|Hne].
      * rewrite Ea. by rewrite decide_True by left.
      * destruct (m0 !! T); [done|].
        destruct (decide (T ∈ Ts)).
        -- by rewrite decide_True by (by right).
        -- rewrite decide_False; [done|]. rewrite elem_of_cons. naive_solver.
Qed.

Lemma forallb_hasStorage Ts w T :
  forallb (λ T, hasStorage T w) Ts = true → T ∈ Ts → hasStorage T w = true.
Proof.
  intros Hall HT. apply Is_true_eq_left in Hall.
  rewrite forallb_True, Forall_forall in Hall. apply Is_true_eq_true. by apply Hall.
Qed.

Lemma getStorage_storage_of T w :
  hasStorage T w = true → getStorage T w = Return (storage_of T w).
Proof.
  intros [s E]%hasStorage_true. unfold getStorage, storage_of. by rewrite E.
Qed.

Lemma view_eq Ts w : view Ts w = Return (View_new Ts (viewed Ts w <$> Ts)).
Proof.
  unfold view. destruct (forallb (λ T, hasStorage T w) Ts) eqn:E; simpl.
  - rewrite (expand_pure (λ T, storage_of T w)).
    + simpl. do 2 f_equal. apply list_fmap_ext. intros i T _. unfold viewed. by rewrite E.
    + intros T HT. apply getStorage_storage_of. by eapply forallb_hasStorage.
  - do 2 f_equal. apply list_fmap_ext. intros i T _. unfold viewed. by rewrite E.
Qed.

Lemma View_getStorage_viewed Ts (g : N → Storage Component Callback) T :
  T ∈ Ts → View_getStorage (View_new Ts (g <$> Ts)) T = Return (g T).
Proof.
  intros HT. unfold View_getStorage. rewrite View_new_lookup.
  by rewrite decide_True.
Qed.

Lemma base_viewed Ts (g : N → Storage Component Callback) :
  Ts ≠ [] → ∃ T0, T0 ∈ Ts ∧ base (View_new Ts (g <$> Ts)) = Return (g T0).
Proof.
  intros Hne. unfold base.
  destruct (hash_order _ (storages (View_new Ts (g <$> Ts)))) as [|item l] eqn:E.
  - exfalso. destruct Ts as [|T1 Ts]; [done|].
    assert (Hin : (T1, g T1) ∈ hash_order _ (storages (View_new (T1 :: Ts) (g <$> T1 :: Ts)))).
    { apply hash_order_lookup. simpl fst. simpl snd. rewrite View_new_lookup.
      by rewrite decide_True by left. }
    rewrite E in Hin. by apply not_elem_of_nil in Hin.
  - assert (Hin : item ∈ hash_order _ (storages (View_new Ts (g <$> Ts))))
      by (rewrite E; left).
    apply hash_order_lookup in Hin. rewrite View_new_lookup in Hin.
    destruct (decide (item.1 ∈ Ts)); [|done].
    injection Hin as Hin. exists item.1. by rewrite Hin.
Qed.

Lemma contains_all_viewed Ts (g : N → Storage Component Callback) e :
  contains_all (View_new Ts (g <$> Ts)) e =
  Return (forallb (λ T, contains e (g T)) Ts).
Proof.
  unfold contains_all. apply conjunction_pure. intros T HT.
  by rewrite View_getStorage_viewed.
Qed.

Lemma at_all_viewed Ts (g : N → Storage Component Callback) e :
  at_all (View_new Ts (g <$> Ts)) e = expand (λ T, at_ e (g T)) Ts.
Proof.
  unfold at_all. apply expand_ext. intros T HT.
  by rewrite View_getStorage_viewed.
Qed.

(** ** The entities a view visits *)

Lemma contains_dom e s : contains e s = true ↔ e ∈ dom (items s).
Proof. rewrite contains_lookup, elem_of_dom. reflexivity. Qed.

Lemma in_sync_viewed Ts w T : storages_in_sync w → in_sync (viewed Ts w T).
Proof.
  intros Hw. unfold viewed. destruct (forallb _ Ts).
  - by apply in_sync_storage_of.
  - apply in_sync_new.
Qed.

Lemma holds_all_viewed Ts e w :
  Ts ≠ [] →
  forallb (λ T, contains e (viewed Ts w T)) Ts = true ↔ holds_all Ts e w.
Proof.
  intros Hne. unfold holds_all, viewed.
  destruct (forallb (λ T, hasStorage T w) Ts) eqn:E.
  - rewrite <- Is_true_true, forallb_True. apply Forall_iff. intros T.
    rewrite has_true_contains. by rewrite Is_true_true.
  - split.
    + destruct Ts as [|T1 Ts]; [done|]. simpl. by rewrite contains_new.
    + intros Hall. exfalso.
      assert (forallb (λ T, hasStorage T w) Ts = true); [|congruence].
      apply Is_true_true. rewrite forallb_True. eapply Forall_impl; [exact Hall|].
      intros T HT. simpl in HT. apply Is_true_true.
      destruct (hasStorage T w) eqn:ET; [done|].
      pose proof (hasStorage_None T w) as Hnone.
      unfold hasStorage in ET. apply bool_decide_eq_false in ET.
      rewrite has_eq in HT. unfold storage_of in HT.
      destruct (componentStorage w !! T); [exfalso; eauto|].
      simpl in HT. by rewrite contains_new in HT.
Qed.

Lemma at_all_values Ts e w :
  holds_all Ts e w → expand (λ T, at_ e (storage_of T w)) Ts = Return (values Ts e w).
Proof.
  intros Hall. unfold values.
  rewrite (expand_ext (λ T, get T e w) (λ T, at_ e (storage_of T w)))
    by (intros; apply get_eq).
  unfold holds_all in Hall.
  induction Hall as [|T Ts HT _ IH]; simpl; [done|].
  apply has_true_contains, contains_lookup in HT as [c Hc].
  assert (Hat : at_ e (storage_of T w) = Return c) by (unfold at_; by rewrite Hc).
  rewrite Hat. simpl.
  destruct (expand _ Ts); [done|discriminate].
Qed.

Lemma holders_elem_of Ts e w : Ts ≠ [] → e ∈ holders Ts w ↔ holds_all Ts e w.
Proof.
  destruct Ts as [|T1 Ts]; [done|]. intros _. unfold holders.
  rewrite list_elem_of_filter, in_order_elem_of. split; [tauto|].
  intros Hall. split; [done|]. unfold holds_all in Hall.
  apply Forall_cons_1 in Hall as [H1 _].
  by apply contains_dom, has_true_contains.
Qed.

Lemma holders_NoDup Ts w : NoDup (holders Ts w).
Proof.
  destruct Ts as [|T1 Ts]; [constructor|]. unfold holders.
  apply NoDup_filter, in_order_NoDup.
Qed.

Lemma holders_sorted Ts w : StronglySorted Entity_le (holders Ts w).
Proof.
  destruct Ts as [|T1 Ts]; [constructor|]. unfold holders.
  apply StronglySorted_filter, in_order_sorted.
Qed.

Lemma at_all_viewed_values Ts e w :
  Ts ≠ [] →
  forallb (λ T, contains e (viewed Ts w T)) Ts = true →
  at_all (View_new Ts (viewed Ts w <$> Ts)) e = Return (values Ts e w).
Proof.
  intros Hne E. rewrite at_all_viewed. apply holds_all_viewed in E as Hall; [|done].
  assert (Hg : forallb (λ T, hasStorage T w) Ts = true).
  { unfold viewed in E. destruct (forallb (λ T, hasStorage T w) Ts); [done|].
    destruct Ts as [|T1 Ts]; [done|]. simpl in E. by rewrite contains_new in E. }
  rewrite (expand_ext _ (λ T, at_ e (storage_of T w)))
    by (intros; unfold viewed; by rewrite Hg).
  by rewrite at_all_values.
Qed.

Lemma visited_eq Ts w T0 :
  Ts ≠ [] → storages_in_sync w → T0 ∈ Ts →
  filter (λ e, forallb (λ T, contains e (viewed Ts w T)) Ts)
         (in_order (st_entities (viewed Ts w T0))) = holders Ts w.
Proof.
  intros Hne Hw HT0. apply ascending_unique.
  - apply StronglySorted_filter, in_order_sorted.
  - apply holders_sorted.
  - apply NoDup_filter, in_order_NoDup.
  - apply holders_NoDup.
  - intros e. rewrite holders_elem_of by done.
    rewrite list_elem_of_filter, in_order_elem_of, Is_true_true.
    rewrite holds_all_viewed by done. split; [tauto|].
    intros Hall. split; [done|].
    rewrite <- (in_sync_viewed Ts w T0 Hw). apply contains_dom.
    apply holds_all_viewed in Hall; [|done].
    apply Is_true_true in Hall. rewrite forallb_True, Forall_forall in Hall.
    apply Is_true_true. by apply Hall.
Qed.

(** [each] calls its argument for the holders, in ascending order, with the
    values they hold in the world the view was made from. *)
Lemma each_eq {St} Ts w (f : Entity → list Component → St → St) (acc : St) :
  Ts ≠ [] → storages_in_sync w →
  each (View_new Ts (viewed Ts w <$> Ts)) f acc =
  Return (foldl (λ acc e, f e (values Ts e w) acc) acc (holders Ts w)).
Proof.
  intros Hne Hw. unfold each.
  destruct (base_viewed Ts (viewed Ts w) Hne) as (T0 & HT0 & ->). simpl.
  rewrite (for_each_filter _ (λ e, forallb (λ T, contains e (viewed Ts w T)) Ts)
                           (λ acc e, f e (values Ts e w) acc)).
  - by rewrite visited_eq.
  - intros e a _. rewrite contains_all_viewed. simpl.
    destruct (forallb (λ T, contains e (viewed Ts w T)) Ts) eqn:E; [|done].
    by rewrite at_all_viewed_values.
Qed.

Lemma expand_Forall2 {A B} (g : A → Outcome B) l cs :
  expand g l = Return cs → Forall2 (λ x c, g x = Return c) l cs.
Proof.
  revert cs. induction l as [|x l IH]; intros cs; simpl.
  - intros [= <-]. constructor.
  - destruct (g x) as [c|] eqn:Ex; simpl; [|done].
    destruct (expand g l) as [cs'|]; simpl; [|done].
    intros [= <-]. constructor; [done|]. by apply IH.
Qed.

Lemma values_get Ts e w :
  holds_all Ts e w → Forall2 (λ T c, get T e w = Return c) Ts (values Ts e w).
Proof.
  intros Hall. apply expand_Forall2.
  rewrite (expand_ext (λ T, get T e w) (λ T, at_ e (storage_of T w)))
    by (intros; apply get_eq).
  by apply at_all_values.
Qed.

(** C2: in a world whose storages keep mapping and membership set equal,
    [view<Ts...>()] for at least one type never fails, and [each(f)] on the
    view it returns never fails and calls [f] once for every entity that
    holds all of [Ts], in ascending order, and for no other entity; the
    arguments of a call are the entity and the values [get<T>(e)] gives for
    the types of [Ts], in their order.  When some type of [Ts] is held by no
    entity, for one because it has no storage, [f] is not called. *)
Theorem each_visits_the_holders Ts w :
  Ts ≠ [] → storages_in_sync w →
  ∃ v, view Ts w = Return v ∧
       NoDup (holders Ts w) ∧
       (∀ e, e ∈ holders Ts w ↔ holds_all Ts e w) ∧
       (∀ e, e ∈ holders Ts w →
             Forall2 (λ T c, get T e w = Return c) Ts (values Ts e w)) ∧
       (∀ (St : Type) (f : Entity → list Component → St → St) (acc : St),
          each v f acc =
          Return (foldl (λ acc e, f e (values Ts e w) acc) acc (holders Ts w))) ∧
       ((∃ T, T ∈ Ts ∧ (hasStorage T w = false ∨ ∀ e, has T e w = Return false)) →
        ∀ (St : Type) (f : Entity → list Component → St → St) (acc : St),
          each v f acc = Return acc).
Proof.
  intros Hne Hw. eexists. split; [apply view_eq|].
  split; [apply holders_NoDup|].
  split; [intros e; by apply holders_elem_of|].
  split; [intros e He; by apply values_get, holders_elem_of|].
  split; [intros St f acc; by apply each_eq|].
  intros (T & HT & Hnone) St f acc. rewrite each_eq by done.
  assert (Hempty : holders Ts w = []); [|by rewrite Hempty].
  apply elem_of_nil_inv. intros e He.
  apply holders_elem_of in He; [|done]. unfold holds_all in He.
  rewrite Forall_forall in He. specialize (He T HT).
  destruct Hnone as [Hno|Hno]; [|by rewrite Hno in He].
  rewrite has_eq in He. unfold hasStorage in Hno. apply bool_decide_eq_false in Hno.
  unfold storage_of in He. destruct (componentStorage w !! T); [exfalso; eauto|].
  simpl in He. by rewrite contains_new in He.
Qed.

(** C5 (amended): a view made by [view<Ts...>()] holds copies of the
    storages, taken when it is made: for every type of [Ts], the storage of
    the world if all of [Ts] had one, an empty storage otherwise.  Whatever
    calls the client makes on the world afterwards, and whatever the
    callback given to [each] does to the world, [each] visits the entities
    that held all of [Ts] when the view was made and passes the values they
    held then. *)
Theorem view_is_a_copy Ts w v :
  Ts ≠ [] → storages_in_sync w → view Ts w = Return v →
  (∀ T, T ∈ Ts → storages v !! T = Some (viewed Ts w T)) ∧
  (∀ T s, storages v !! T = Some s → T ∈ Ts) ∧
  (∀ (calls : list (Call Component Callback))
     (f : Entity → list Component → World Component Callback → World Component Callback),
     let w' := (run calls w []).1 in
     each v f w' =
     Return (foldl (λ cur e, f e (values Ts e w) cur) w' (holders Ts w))).
Proof.
  intros Hne Hw. rewrite view_eq. intros [= <-].
  split; [|split].
  - intros T HT. rewrite View_new_lookup. by rewrite decide_True.
  - intros T s'. rewrite View_new_lookup. by case_decide.
  - intros calls f w'. by apply each_eq.
Qed.

(** C7: when the subscribers keep the mapping and the membership set of
    every storage equal (they reach the storages through the member
    functions only), so does every call a client can make, whether it
    returns or throws: [assign], [transform], [patch], [get], [has],
    [remove], [size], [createEntity], [destroyEntity], [view], the
    dispatcher accessors, [connect] and [disconnect].  The two are equal in
    a new world, hence after any sequence of calls, and in the storages a
    view holds. *)
Theorem storages_stay_in_sync :
  (∀ cb w e, storages_in_sync w → storages_in_sync (world_after (invoke cb w e))) →
  storages_in_sync (@World_new Component Callback) ∧
  (∀ (c : Call Component Callback) w,
     storages_in_sync w → storages_in_sync (world_after (call c w))) ∧
  (∀ (calls : list (Call Component Callback)) w issued,
     storages_in_sync w → storages_in_sync (run calls w issued).1) ∧
  (∀ Ts w v T s,
     storages_in_sync w → view Ts w = Return v → storages v !! T = Some s →
     in_sync s).
Proof.
  intros Hsubs.
  assert (Hcall : ∀ (c : Call Component Callback) w,
             storages_in_sync w → storages_in_sync (world_after (call c w)))
    by (intros; by apply call_in_sync).
  split; [apply storages_in_sync_new|]. split; [done|]. split.
  - intros calls w issued Hw. by apply run_in_sync.
  - intros Ts w v T s Hw. rewrite view_eq. intros [= <-].
    rewrite View_new_lookup. case_decide; [|done].
    intros [= <-]. by apply in_sync_viewed.
Qed.

(** ** createEntity *)

Lemma createEntity_eq w :
  createEntity w =
  (Return {| entityId := nextEntityId w |},
   {| nextEntityId := uint_succ (nextEntityId w);
      entities := {[ {| entityId := nextEntityId w |} ]} ∪ entities w;
      componentStorage := componentStorage w |}, [], [ {| entityId := nextEntityId w |} ]).
Proof. done. Qed.

Lemma counter_tracks_new : counter_tracks (@World_new Component Callback) [].
Proof.
  unfold counter_tracks. simpl. intros _. split; [done|]. split.
  - intros e. rewrite elem_of_nil. lia.
  - intros e He. by apply not_elem_of_empty in He.
Qed.

Lemma counter_tracks_createEntity w issued :
  counter_tracks w issued →
  counter_tracks (world_after (createEntity w)) (issued ++ [ {| entityId := nextEntityId w |} ]).
Proof.
  unfold counter_tracks. intros Hw. rewrite length_app. simpl.
  intros Hle. destruct Hw as (Hnext & Hissued & Hlive); [lia|].
  assert (Hn : nextEntityId w = N.of_nat (length issued)).
  { rewrite Hnext. apply N.mod_small. lia. }
  unfold world_after; simpl. split; [|split].
  - unfold uint_succ. rewrite Hn. f_equal. lia.
  - intros e. rewrite elem_of_app, list_elem_of_singleton, Hissued, Hn.
    destruct e as [i]; simpl. split.
    + intros [?|[= ->]]; lia.
    + intros Hlt. destruct (decide (i = N.of_nat (length issued))) as [->|]; [by right|].
      left. lia.
  - intros e. rewrite elem_of_union, elem_of_singleton, elem_of_app, list_elem_of_singleton.
    intros [->|He]; [by right|]. left. by apply Hlive.
Qed.

Lemma counter_tracks_frame w w' issued :
  nextEntityId w' = nextEntityId w → entities w' ⊆ entities w →
  counter_tracks w issued → counter_tracks w' issued.
Proof.
  unfold counter_tracks. intros Hnext Hsub Hw Hle.
  destruct (Hw Hle) as (? & ? & Hlive). rewrite Hnext.
  split; [done|]. split; [done|]. intros e He. apply Hlive. set_solver.
Qed.

Section Counter.

(** Subscribers reach the counter and the set of live entities through
    [createEntity] and [destroyEntity] only: what holds of the world and
    the identifiers issued before a subscriber is called holds of the world
    it leaves and those identifiers followed by the ones [createEntity]
    returned to it. *)
Hypothesis invoke_counter :
  ∀ cb w e issued,
    counter_tracks w issued →
    counter_tracks (world_after (invoke cb w e)) (issued ++ created (invoke cb w e)).

Lemma delivery_counter p T e w issued :
  counter_tracks w issued →
  counter_tracks (world_after (delivery p T e w)) (issued ++ created (delivery p T e w)).
Proof.
  intros Hw. apply (delivery_created_ind counter_tracks); [done|].
  intros w' cs' id cb Hw' _. by apply invoke_counter.
Qed.

Lemma delivery_counter_put p T e s w issued :
  counter_tracks w issued →
  counter_tracks (world_after (delivery p T e (put T s w)))
                 (issued ++ created (delivery p T e (put T s w))).
Proof. intros Hw. apply delivery_counter. by apply (counter_tracks_frame w). Qed.

Lemma call_counter (c : Call Component Callback) w issued :
  counter_tracks w issued →
  counter_tracks (world_after (call c w)) (issued ++ created (call c w)).
Proof.
  intros Hw.
  destruct c as [T e c|T e f|T e f|T e|T e|T e| | |e|Ts|p T|p T f|p T id]; simpl.
  - rewrite assign_eq. cbv zeta. simpl_result. by apply delivery_counter_put.
  - rewrite transform_eq. destruct (items (storage_of T w) !! e).
    + cbv zeta. simpl_result. by apply delivery_counter_put.
    + simpl_result. by rewrite app_nil_r.
  - rewrite patch_eq. destruct (items (storage_of T w) !! e).
    + cbv zeta. simpl_result. by apply delivery_counter_put.
    + simpl_result. by rewrite app_nil_r.
  - unfold_M. destruct (get T e w); cbn [fst snd]; by rewrite app_nil_r.
  - unfold_M. destruct (has T e w); cbn [fst snd]; by rewrite app_nil_r.
  - rewrite remove_eq. cbv zeta.
    pose proof (delivery_counter_put OnRemove T e (storage_of T w) w issued Hw) as Hn.
    destruct (outcome _) as [[]|f]; [|done].
    destruct (componentStorage _ !! T); simpl_result; [|done].
    by eapply counter_tracks_frame; [| |exact Hn].
  - unfold_M. cbn [fst snd]. by rewrite app_nil_r.
  - unfold_M. cbn [fst snd app]. by apply counter_tracks_createEntity.
  - unfold destroyEntity. simpl_result. rewrite app_nil_r.
    apply (counter_tracks_frame w); [done|simpl; set_solver|done].
  - unfold_M. destruct (view Ts w); cbn [fst snd]; by rewrite app_nil_r.
  - unfold_M. rewrite on_phase_eq. cbn [fst snd app]. rewrite app_nil_r.
    by apply (counter_tracks_frame w).
  - unfold_M. rewrite on_phase_eq, connect_at_put. cbn [fst snd app]. rewrite app_nil_r.
    by apply (counter_tracks_frame w).
  - unfold_M. rewrite on_phase_eq. unfold disconnect_at. cbn [fst snd].
    rewrite on_storage_put. cbn [fst snd app]. rewrite app_nil_r.
    by apply (counter_tracks_frame w).
Qed.

Lemma run_counter_tracks (calls : list (Call Component Callback)) w issued :
  counter_tracks w issued →
  counter_tracks (run calls w issued).1 (run calls w issued).2.
Proof.
  revert w issued. induction calls as [|c calls IH]; intros w issued Hw; [done|].
  simpl. apply IH. by apply call_counter.
Qed.

(** C8 (amended): [createEntity] never fails and publishes nothing; the
    identifier it returns is live afterwards, and [size()] has grown by one
    unless that identifier was live already.  In a session that starts from
    a new world, as long as [createEntity] returned fewer than [2^32] times
    so far, to the client or to a subscriber, the identifier it returns is
    none of those it returned before, destroyed or not, and [size()] grows
    by one.  (The counter is an [unsigned]: it starts again at 0 after
    [2^32] identifiers.) *)
Theorem createEntity_returns_fresh_identifier (calls : list (Call Component Callback)) :
  let w := (run calls World_new []).1 in
  let issued := (run calls World_new []).2 in
  let r := createEntity w in
  ∃ newEntity,
    outcome r = Return newEntity ∧ fired r = [] ∧ created r = [newEntity] ∧
    newEntity ∈ entities (world_after r) ∧
    world_size (world_after r) =
      world_size w + (if decide (newEntity ∈ entities w) then 0 else 1) ∧
    ((N.of_nat (length issued) < UINT_MODULUS)%N →
     (newEntity ∉ issued) ∧
     (∀ e, e ∈ entities w → e ≠ newEntity) ∧
     world_size (world_after r) = S (world_size w)).
Proof.
  intros w issued r.
  pose proof (run_counter_tracks calls World_new [] counter_tracks_new) as Htracks.
  fold w issued in Htracks.
  exists {| entityId := nextEntityId w |}.
  assert (Hsize : ∀ X : gset Entity, ∀ x, x ∉ X → size ({[x]} ∪ X) = S (size X)).
  { intros X x Hx. rewrite size_union, size_singleton; [done|].
    by apply disjoint_singleton_l. }
  split; [done|]. split; [done|]. split; [done|].
  split; [subst r; unfold world_after; simpl; set_solver|]. split.
  { subst r. unfold world_size, world_after; simpl.
    destruct (decide (_ ∈ entities w)) as [Hin|Hout].
    - rewrite Nat.add_0_r. f_equal. set_solver.
    - rewrite Hsize; [lia|done]. }
  intros Hlt. destruct Htracks as (Hnext & Hissued & Hlive); [lia|].
  assert (Hfresh : {| entityId := nextEntityId w |} ∉ issued).
  { rewrite Hissued. simpl. rewrite Hnext, N.mod_small; lia. }
  split; [done|]. split.
  { intros e He ->. by apply Hfresh, Hlive. }
  subst r. unfold world_size, world_after; simpl.
  apply Hsize. intros Hin. by apply Hfresh, Hlive.
Qed.

End Counter.

(** After [n] calls in a row, with [n] up to [2^32], the counter is [n]
    modulo [2^32] and the live entities are those numbered below [n]. *)
Lemma create_many_spec (n : N) :
  (n <= UINT_MODULUS)%N →
  nextEntityId (create_many n (@World_new Component Callback)) = (n mod UINT_MODULUS)%N ∧
  ∀ e, e ∈ entities (create_many n (@World_new Component Callback)) ↔ (entityId e < n)%N.
Proof.
  unfold create_many. induction n as [|n IH] using N.peano_ind; intros Hle.
  - simpl. split; [done|]. intros e. rewrite elem_of_empty. lia.
  - rewrite N.iter_succ. destruct IH as [Hnext Hlive]; [lia|].
    set (wn := N.iter n _ World_new) in *. clearbody wn.
    rewrite createEntity_eq. unfold world_after. cbn [fst snd nextEntityId entities]. split.
    + unfold uint_succ. rewrite Hnext, (N.mod_small n) by lia. f_equal. lia.
    + intros e. rewrite elem_of_union, elem_of_singleton, Hlive, Hnext.
      rewrite (N.mod_small n) by lia. destruct e as [i]; simpl. split.
      * intros [[= ->]|?]; lia.
      * intros Hlt. destruct (decide (i = n)) as [->|]; [by left|]. right. lia.
Qed.

(** ** View iterators *)

Lemma operator_incr_unfold fuel (it : Iterator Component Callback) :
  operator_incr fuel it =
  if set_neq (entityIterator it) (endIterator it) then
    match fuel with
    | 0 => None
    | S fuel' =>
        let it' := {| container := container it;
                      entityIterator := set_next (entityIterator it);
                      endIterator := endIterator it |} in
        entity ← set_deref (entityIterator it');
        ok ← raised (contains_all (container it') entity);
        if ok : bool then mret it' else operator_incr fuel' it'
    end
  else mret it.
Proof. by destruct fuel. Qed.

Lemma loop_unfold {St} fuel (it last : Iterator Component Callback)
    (body : Reference Entity → list Component → St → Outcome St) (acc : St) :
  loop fuel it last body acc =
  if operator_neq it last then
    match fuel with
    | 0 => None
    | S fuel' =>
        match operator_star it with
        | None => None
        | Some (Raise f, reads) => Some (Raise f, acc, reads)
        | Some (Return x, reads) =>
            match body x.1 x.2 acc with
            | Raise f => Some (Raise f, acc, reads)
            | Return acc' =>
                match operator_incr fuel it with
                | None => None
                | Some (Raise f, reads') => Some (Raise f, acc', reads ++ reads')
                | Some (Return it', reads') =>
                    match loop fuel' it' last body acc' with
                    | None => None
                    | Some (o, acc'', reads'') => Some (o, acc'', reads ++ reads' ++ reads'')
                    end
                end
            end
        end
    end
  else Some (Return (), acc, []).
Proof. by destruct fuel. Qed.

Lemma skip_count_le {A} (P : A → bool) l : skip_count P l ≤ length l.
Proof. induction l as [|x l IH]; simpl; [done|]. destruct (P x); lia. Qed.

Lemma skip_count_filter {A} (P : A → bool) l :
  filter P (drop (skip_count P l) l) = filter P l.
Proof.
  induction l as [|x l IH]; simpl; [done|].
  destruct (P x) eqn:E; simpl; [done|]. rewrite IH, filter_cons.
  rewrite decide_False; [done|]. rewrite E. simpl. tauto.
Qed.

Lemma skip_count_lookup {A} (P : A → bool) l :
  skip_count P l < length l → ∃ x, l !! skip_count P l = Some x ∧ P x = true.
Proof.
  induction l as [|x l IH]; simpl; [lia|].
  destruct (P x) eqn:E; simpl; [eauto|]. intros Hlt. apply IH. lia.
Qed.

Lemma skip_count_all {A} (P : A → bool) l :
  skip_count P l = length l → filter P l = [].
Proof.
  induction l as [|x l IH]; simpl; [done|].
  destruct (P x) eqn:E; simpl; [done|]. intros [= Hl]. rewrite filter_cons.
  rewrite decide_False; [by apply IH|]. rewrite E. simpl. tauto.
Qed.

Section Iteration.

(** A view whose storages are all there, over the sequence [l]. *)
Variable v : View Component Callback.
Variable l : list Entity.
Variable P : Entity → bool.
Hypothesis contains_all_P : ∀ e, contains_all v e = Return (P e).

Lemma operator_incr_step i fuel :
  i ≠ length l →
  operator_incr (S fuel) (iterator_at v l i) =
  match l !! S i with
  | Some e =>
      if P e then Some (Return (iterator_at v l (S i)), [S i])
      else match operator_incr fuel (iterator_at v l (S i)) with
           | Some (o, r) => Some (o, S i :: r)
           | None => None
           end
  | None => Some (Raise undefined, [S i])
  end.
Proof.
  intros Hi. rewrite operator_incr_unfold.
  assert (Hneq : set_neq (entityIterator (iterator_at v l i))
                         (endIterator (iterator_at v l i)) = true).
  { unfold set_neq, iterator_at. cbn [entityIterator endIterator position].
    by apply negb_true_iff, Nat.eqb_neq. }
  rewrite Hneq. cbv zeta.
  change {| container := container (iterator_at v l i);
            entityIterator := set_next (entityIterator (iterator_at v l i));
            endIterator := endIterator (iterator_at v l i) |}
    with (iterator_at v l (S i)).
  unfold set_deref, mbind, Step_bind, raised, mret, Step_ret.
  cbn [iterator_at entityIterator range position container].
  destruct (l !! S i) as [e|]; [|done].
  rewrite contains_all_P.
  destruct (P e); [done|].
  by destruct (operator_incr fuel (iterator_at v l (S i))) as [[o r]|].
Qed.

Lemma operator_incr_stop fuel :
  operator_incr fuel (iterator_at v l (length l)) =
  Some (Return (iterator_at v l (length l)), []).
Proof.
  rewrite operator_incr_unfold. unfold set_neq, iterator_at.
  cbn [entityIterator endIterator position]. by rewrite Nat.eqb_refl.
Qed.

(** [operator++] stops at the next entity that passes the test, reading
    every position after its own up to there.  When no entity after its
    own passes the test it reads on to the end position, which is
    undefined. *)
Lemma operator_incr_spec rest i fuel :
  drop (S i) l = rest → i < length l → length rest < fuel →
  operator_incr fuel (iterator_at v l i) =
  Some (if decide (skip_count P rest < length rest)
        then Return (iterator_at v l (S i + skip_count P rest))
        else Raise undefined,
        seq (S i) (S (skip_count P rest))).
Proof.
  revert i fuel. induction rest as [|e rest IH]; intros i fuel Hdrop Hi Hfuel.
  - destruct fuel as [|fuel]; [simpl in Hfuel; lia|].
    apply drop_nil_inv in Hdrop.
    rewrite operator_incr_step by lia.
    by rewrite (lookup_ge_None_2 l (S i)) by lia.
  - destruct fuel as [|fuel]; [simpl in Hfuel; lia|].
    assert (Hlook : l !! S i = Some e).
    { rewrite <- (Nat.add_0_r (S i)), <- lookup_drop. by rewrite Hdrop. }
    assert (Hdrop' : drop (S (S i)) l = rest).
    { rewrite (drop_S l e (S i) Hlook) in Hdrop. by injection Hdrop. }
    rewrite operator_incr_step by lia. rewrite Hlook. cbn [skip_count length].
    destruct (P e) eqn:E.
    + rewrite decide_True by lia. by rewrite Nat.add_0_r.
    + apply lookup_lt_Some in Hlook as Hlt.
      rewrite (IH (S i) fuel Hdrop' Hlt) by (simpl in Hfuel; lia).
      rewrite Nat.add_succ_r. do 2 f_equal.
      destruct (decide (skip_count P rest < length rest)).
      * by rewrite decide_True by lia.
      * by rewrite decide_False by lia.
Qed.

(** What [getStorage<Components>().at(entity)...] gives an entity that
    passes the test, and that it throws for one that does not. *)
Variable vals : Entity → list Component.
Hypothesis at_all_vals : ∀ e, P e = true → at_all v e = Return (vals e).
Hypothesis at_all_throws : ∀ e, P e = false → at_all v e = Raise out_of_range.

Lemma operator_star_at i e :
  l !! i = Some e →
  operator_star (iterator_at v l i) =
  if P e then Some (Return (Dangling, vals e), [i]) else Some (Raise out_of_range, [i]).
Proof.
  intros Hi. unfold operator_star, set_deref, mbind, Step_bind, raised, mret, Step_ret.
  cbn [iterator_at entityIterator range position container]. rewrite Hi.
  destruct (P e) eqn:E.
  - by rewrite at_all_vals.
  - by rewrite at_all_throws.
Qed.

Lemma operator_neq_at i j :
  operator_neq (iterator_at v l i) (iterator_at v l j) = negb (i =? j).
Proof. done. Qed.

(** At an entity that passes the test, a body that reads the entity it is
    given, or fails otherwise, ends the loop there. *)
Lemma loop_body_raises {St} (body : Reference Entity → list Component → St → Outcome St)
    fuel i e (acc : St) f :
  l !! i = Some e → P e = true → body Dangling (vals e) acc = Raise f →
  loop (S fuel) (iterator_at v l i) (iterator_at v l (length l)) body acc =
  Some (Raise f, acc, [i]).
Proof.
  intros Hi HP Hbody. apply lookup_lt_Some in Hi as Hlt.
  rewrite loop_unfold, operator_neq_at.
  assert ((i =? length l) = false) as -> by (apply Nat.eqb_neq; lia).
  cbn [negb]. rewrite (operator_star_at i e Hi), HP. cbn [fst snd]. by rewrite Hbody.
Qed.

(** From an entity that passes the test, with a body that leaves the
    entity it is given alone, the loop visits the entities that pass the
    test from there on, and then reads the end position. *)
Lemma loop_spec {St} (body : Reference Entity → list Component → St → Outcome St)
    (g : list Component → St → St) fuel i e (acc : St) :
  (∀ args st, body Dangling args st = Return (g args st)) →
  l !! i = Some e → P e = true → length l - i ≤ fuel →
  ∃ reads,
    loop fuel (iterator_at v l i) (iterator_at v l (length l)) body acc =
    Some (Raise undefined,
          foldl (λ acc e, g (vals e) acc) acc (filter P (drop i l)),
          reads ++ [length l]).
Proof.
  intros Hbody. revert i e acc. induction fuel as [|fuel IH]; intros i e acc Hi HP Hfuel.
  { apply lookup_lt_Some in Hi. lia. }
  apply lookup_lt_Some in Hi as Hlt.
  rewrite loop_unfold, operator_neq_at.
  assert ((i =? length l) = false) as -> by (apply Nat.eqb_neq; lia).
  cbn [negb]. rewrite (operator_star_at i e Hi), HP. cbn [fst snd]. rewrite Hbody.
  rewrite (drop_S l e i Hi), filter_cons, decide_True by (by rewrite HP).
  rewrite (operator_incr_spec (drop (S i) l) i (S fuel) eq_refl Hlt)
    by (rewrite length_drop; lia).
  cbn [foldl]. set (m := skip_count P (drop (S i) l)).
  rewrite <- (skip_count_filter P (drop (S i) l)). fold m. rewrite drop_drop.
  pose proof (skip_count_le P (drop (S i) l)) as Hm. fold m in Hm.
  rewrite length_drop in Hm.
  destruct (decide (m < length (drop (S i) l))) as [Hmore|Hend].
  - destruct (skip_count_lookup P (drop (S i) l)) as (e' & He' & HP'); [done|].
    fold m in He'. rewrite lookup_drop in He'. rewrite length_drop in Hmore.
    destruct (IH (S i + m) e' (g (vals e) acc) He' HP') as (reads & ->); [lia|].
    exists ([i] ++ seq (S i) (S m) ++ reads). by rewrite <- !app_assoc.
  - rewrite length_drop in Hend. assert (Hlast : S i + m = length l) by lia.
    rewrite drop_ge by lia. rewrite filter_nil. cbn [foldl].
    exists ([i] ++ seq (S i) m). rewrite seq_S, Hlast. by rewrite <- !app_assoc.
Qed.

(** The whole loop: nothing to visit; or a first entity that fails the
    test and makes the first dereference throw; or a body that fails at the
    first entity; or the entities that pass the test, and then the read of
    the end position. *)
Lemma loop_from_begin {St} (body : Reference Entity → list Component → St → Outcome St)
    (g : list Component → St → St) fuel (acc : St) :
  length l ≤ fuel →
  match l with
  | [] =>
      loop fuel (iterator_at v l 0) (iterator_at v l (length l)) body acc =
      Some (Return (), acc, [])
  | e :: _ =>
      if P e then
        ((∀ args st, body Dangling args st = Return (g args st)) →
         ∃ reads,
           loop fuel (iterator_at v l 0) (iterator_at v l (length l)) body acc =
           Some (Raise undefined, foldl (λ acc e, g (vals e) acc) acc (filter P l),
                 reads ++ [length l])) ∧
        (∀ f, body Dangling (vals e) acc = Raise f →
              loop fuel (iterator_at v l 0) (iterator_at v l (length l)) body acc =
              Some (Raise f, acc, [0]))
      else
        loop fuel (iterator_at v l 0) (iterator_at v l (length l)) body acc =
        Some (Raise out_of_range, acc, [0])
  end.
Proof.
  intros Hfuel. destruct l as [|e l'] eqn:El.
  - by rewrite loop_unfold.
  - rewrite <- El in *. assert (H0 : l !! 0 = Some e) by (by rewrite El).
    destruct fuel as [|fuel]; [rewrite El in Hfuel; simpl in Hfuel; lia|].
    destruct (P e) eqn:HP.
    + split.
      * intros Hbody.
        destruct (loop_spec body g (S fuel) 0 e acc Hbody H0 HP) as (reads & Hloop); [lia|].
        exists reads. by rewrite drop_0 in Hloop.
      * intros f Hbody. by apply (loop_body_raises body fuel 0 e).
    + rewrite loop_unfold, operator_neq_at.
      assert ((0 =? length l) = false) as -> by (rewrite El; done).
      cbn [negb]. by rewrite (operator_star_at 0 e H0), HP.
Qed.

End Iteration.

Lemma expand_at_throws Ts (g : N → Storage Component Callback) e :
  forallb (λ T, contains e (g T)) Ts = false →
  expand (λ T, at_ e (g T)) Ts = Raise out_of_range.
Proof.
  induction Ts as [|T Ts IH]; [done|]. cbn [expand forallb].
  destruct (items (g T) !! e) as [c|] eqn:Ei.
  - assert (contains e (g T) = true) as -> by (apply contains_lookup; eauto).
    assert (at_ e (g T) = Return c) as -> by (unfold at_; by rewrite Ei).
    intros Hrest. by rewrite (IH Hrest).
  - by assert (at_ e (g T) = Raise out_of_range) as -> by (unfold at_; by rewrite Ei).
Qed.


(** X1: the range-based [for] over a view of at least one type, in full.
    With [l] the sequence of the primary set and fuel for [length l]
    iterations: the loop does nothing if [l] is empty; it throws
    [std::out_of_range] from its first dereference if the first entity of
    [l] does not hold all of [Ts]; otherwise the body is run, with a
    reference to the entity that dangles.  A body that fails the first time
    it is run, as one that reads the entity does, ends the loop there.
    With a body that leaves the entity alone, the loop runs the body once
    for every holder of [Ts], in ascending order, with the values the
    holder has, and then [operator++] reads the set through its end
    iterator, which is undefined: such a loop never ends normally. *)
Theorem range_for_spec {St} Ts w fuel
    (body : Reference Entity → list Component → St → Outcome St)
    (g : list Component → St → St) (acc : St) :
  Ts ≠ [] → storages_in_sync w →
  let v := View_new Ts (viewed Ts w <$> Ts) in
  ∃ b, base v = Return b ∧
       (length (in_order (st_entities b)) ≤ fuel →
        match in_order (st_entities b) with
        | [] => range_for fuel v body acc = Some (Return (), acc, [])
        | e :: _ =>
            if decide (holds_all Ts e w) then
              ((∀ args st, body Dangling args st = Return (g args st)) →
               ∃ reads,
                 range_for fuel v body acc =
                 Some (Raise undefined,
                       foldl (λ acc e, g (values Ts e w) acc) acc (holders Ts w),
                       reads ++ [length (in_order (st_entities b))])) ∧
              (∀ f, body Dangling (values Ts e w) acc = Raise f →
                    range_for fuel v body acc = Some (Raise f, acc, [0]))
            else range_for fuel v body acc = Some (Raise out_of_range, acc, [0])
        end).
Proof.
  intros Hne Hw v.
  destruct (base_viewed Ts (viewed Ts w) Hne) as (T0 & HT0 & Hbase).
  exists (viewed Ts w T0). split; [done|]. intros Hfuel.
  set (l := in_order (st_entities (viewed Ts w T0))) in *.
  assert (Hrun : range_for fuel v body acc =
                 loop fuel (iterator_at v l 0) (iterator_at v l (length l)) body acc).
  { unfold range_for, begin, end_, v. rewrite Hbase.
    by unfold mbind, Outcome_mbind, Outcome_bind. }
  rewrite Hrun.
  pose proof (loop_from_begin v l (λ e, forallb (λ T, contains e (viewed Ts w T)) Ts)
                (contains_all_viewed Ts (viewed Ts w))
                (λ e, values Ts e w)
                (λ e, at_all_viewed_values Ts e w Hne)
                (λ e HP, eq_trans (at_all_viewed Ts (viewed Ts w) e)
                                  (expand_at_throws Ts (viewed Ts w) e HP))
                body g fuel acc Hfuel) as Hloop.
  assert (Hl : l = in_order (st_entities (viewed Ts w T0))) by done.
  clearbody l. destruct l as [|e l']; [done|]. cbv beta in Hloop.
  destruct (forallb (λ T, contains e (viewed Ts w T)) Ts) eqn:HP.
  - rewrite decide_True by (by apply holds_all_viewed).
    destruct Hloop as [Hloop Hfails]. split; [|done].
    intros Hbody. destruct (Hloop Hbody) as (reads & Hreads). exists reads.
    rewrite Hreads, Hl. by rewrite visited_eq.
  - rewrite decide_False; [done|]. intros Hall.
    apply holds_all_viewed in Hall; [|done]. congruence.
Qed.

(** * Further properties *)

(** ** One component at a time *)

(** X5: [assign<T>(e, v)] neither asks nor changes whether [e] is live: in
    the world its one event is published in, every component other than the
    [T] of [e] is held or not as before, with the value it had, the live
    entities and the counter of identifiers are the same, and so are the
    subscriptions of every dispatcher.  Without subscribers to that event,
    this is the world [assign] leaves behind. *)
Theorem assign_changes_one_component T e (v : Component) w :
  let r := assign T e v w in
  let p := match has T e w with Return true => OnUpdate | _ => OnCreate end in
  ∃ w1,
    fired r = [ {| ev_phase := p; ev_type := T; ev_world := w1; ev_entity := e |} ] ∧
    (∀ T' e', (T', e') ≠ (T, e) →
              get T' e' w1 = get T' e' w ∧ has T' e' w1 = has T' e' w) ∧
    entities w1 = entities w ∧ world_size w1 = world_size w ∧
    nextEntityId w1 = nextEntityId w ∧
    (∀ q T', subscribers q T' w1 = subscribers q T' w) ∧
    (subscribers p T w = ∅ → world_after r = w1).
Proof.
  intros r p. subst r. rewrite assign_eq. cbv zeta. simpl_result.
  assert (Hp : (if contains e (storage_of T w) then OnUpdate else OnCreate) = p).
  { subst p. rewrite has_eq. by destruct (contains e (storage_of T w)). }
  rewrite Hp. eexists. split; [reflexivity|].
  destruct (put_frame T e (insert_or_assign e v) w) as (Hcomp & Hlive & Hnext & Hsubs).
  { intros s e' Hne. unfold insert_or_assign; simpl. by rewrite lookup_insert_ne. }
  { intros s q. by destruct q. }
  split; [done|]. split; [done|]. split; [unfold world_size; by rewrite Hlive|].
  split; [done|]. split; [done|].
  intros Hnone. rewrite delivery_no_subscribers; [done|]. by rewrite Hsubs.
Qed.


(** X6: when the subscribers to the remove event of [T] only observe in
    the world they are called in, [remove<T>(e)] returns and leaves behind
    the world in which [T] has a storage and [e] is erased from it, and
    nothing else is changed: every other component is held or not as
    before, with its value, and the live entities, the counter and the
    subscriptions are the same.  It publishes the remove event whether [e]
    held [T] or not; if it did not, in a world whose storages keep mapping
    and membership set equal, the storage of [T] is as it was. *)
Theorem remove_changes_one_component T e w :
  observers OnRemove T e (put T (storage_of T w) w) →
  let r := remove T e w in
  let w' := world_after r in
  outcome r = Return () ∧
  ev_phase <$> fired r = [OnRemove] ∧
  w' = put T (erase e (storage_of T w)) w ∧
  (∀ T' e', (T', e') ≠ (T, e) →
            get T' e' w' = get T' e' w ∧ has T' e' w' = has T' e' w) ∧
  has T e w' = Return false ∧
  entities w' = entities w ∧ nextEntityId w' = nextEntityId w ∧
  (∀ q T', subscribers q T' w' = subscribers q T' w) ∧
  (storages_in_sync w → has T e w = Return false → w' = put T (storage_of T w) w).
Proof.
  intros Hobs r w'. subst w' r. rewrite remove_eq. cbv zeta.
  destruct (delivery_observers _ _ _ _ Hobs) as [-> ->].
  rewrite lookup_put_eq, put_put. simpl_result.
  destruct (put_frame T e (erase e) w) as (Hcomp & Hlive & Hnext & Hsubs).
  { intros s e' Hne. unfold erase; simpl. by rewrite lookup_delete_ne. }
  { intros s q. by destruct q. }
  do 4 (split; [done|]). split.
  { rewrite contains_storage_of_put. f_equal. apply contains_erase. }
  do 3 (split; [done|]).
  intros Hsync Hhas. f_equal. rewrite has_eq in Hhas. injection Hhas as Hhas.
  pose proof (in_sync_storage_of T w Hsync) as Hs. unfold in_sync in Hs.
  assert (Hnone : items (storage_of T w) !! e = None).
  { unfold contains in Hhas. apply bool_decide_eq_false in Hhas.
    destruct (items (storage_of T w) !! e); [exfalso; eauto|done]. }
  apply erase_absent; [done|]. rewrite <- Hs. by apply not_elem_of_dom.
Qed.

(** X7: in a world whose storages keep mapping and membership set equal,
    when [e] does not hold [T] and the subscribers to the create and remove
    events of [T] only observe in the world in which [e] holds [v],
    [assign<T>(e, v)] followed by [remove<T>(e)] returns twice, publishes
    the create event and then the remove event, and leaves the world as it
    was, but for the storage of [T], which is there afterwards, empty if it
    was not there before. *)
Theorem assign_then_remove_restores T e (v : Component) w :
  storages_in_sync w → has T e w = Return false →
  let w1 := put T (insert_or_assign e v (storage_of T w)) w in
  observers OnCreate T e w1 → observers OnRemove T e w1 →
  let r1 := assign T e v w in
  let r2 := remove T e (world_after r1) in
  outcome r1 = Return () ∧ outcome r2 = Return () ∧
  ev_phase <$> (fired r1 ++ fired r2) = [OnCreate; OnRemove] ∧
  world_after r1 = w1 ∧
  has T e (world_after r1) = Return true ∧
  world_after r2 = put T (storage_of T w) w ∧
  (hasStorage T w = true → world_after r2 = w).
Proof.
  intros Hsync Hhas w1 Hcreate Hremove r1 r2. subst r2 r1.
  rewrite has_eq in Hhas. injection Hhas as Hhas.
  assert (Hback : erase e (insert_or_assign e v (storage_of T w)) = storage_of T w).
  { pose proof (in_sync_storage_of T w Hsync) as Hs. unfold in_sync in Hs.
    assert (Hnone : items (storage_of T w) !! e = None).
    { unfold contains in Hhas. apply bool_decide_eq_false in Hhas.
      destruct (items (storage_of T w) !! e); [exfalso; eauto|done]. }
    destruct (storage_of T w) as [its ents dc du dr].
    unfold erase, insert_or_assign; simpl in *. f_equal.
    - by apply delete_insert_id.
    - apply not_elem_of_dom in Hnone. rewrite Hs in Hnone. set_solver. }
  destruct (delivery_observers _ _ _ _ Hcreate) as [Hret1 Hsame1].
  destruct (delivery_observers _ _ _ _ Hremove) as [Hret2 Hsame2].
  assert (H1 : outcome (assign T e v w) = Return () ∧ world_after (assign T e v w) = w1 ∧
               ev_phase <$> fired (assign T e v w) = [OnCreate]).
  { rewrite assign_eq, Hhas. cbv zeta. fold w1. simpl_result. by rewrite Hret1, Hsame1. }
  destruct H1 as (Ho1 & Hw1 & Hf1). rewrite Ho1, Hw1, fmap_app, Hf1.
  assert (H2 : outcome (remove T e w1) = Return () ∧
               world_after (remove T e w1) = put T (storage_of T w) w ∧
               ev_phase <$> fired (remove T e w1) = [OnRemove]).
  { rewrite remove_eq. cbv zeta.
    assert (Hput : put T (storage_of T w1) w1 = w1).
    { unfold w1. by rewrite storage_of_put, put_put. }
    rewrite Hput, Hret2, Hsame2.
    assert (Hs1 : componentStorage w1 !! T = Some (insert_or_assign e v (storage_of T w)))
      by apply lookup_put_eq.
    rewrite Hs1. simpl_result. unfold w1. by rewrite put_put, Hback. }
  destruct H2 as (Ho2 & Hw2 & Hf2). rewrite Ho2, Hw2, Hf2.
  split; [done|]. split; [done|]. split; [done|]. split; [done|].
  split; [|split; [done|]].
  - unfold w1. rewrite has_eq, storage_of_put. f_equal. apply contains_lookup.
    unfold insert_or_assign; simpl. rewrite lookup_insert_eq. eauto.
  - apply put_storage_of.
Qed.

(** ** Identifiers of subscriptions *)

Lemma dispatch_length (calls : list (DispatcherCall Callback)) d returned :
  length returned ≤ length (dispatch calls d returned).2.
Proof.
  revert d returned. induction calls as [|[g|i] calls IH]; intros d l; simpl; [done| |apply IH].
  etrans; [|apply IH]. rewrite length_app. simpl. lia.
Qed.

Lemma dispatch_tracks (calls : list (DispatcherCall Callback)) d returned :
  let n := N.of_nat (length returned) in
  let r := dispatch calls d returned in
  let n' := N.of_nat (length r.2) in
  (n' <= UINT_MODULUS)%N →
  (nextCallbackId d = n mod UINT_MODULUS)%N →
  (∀ id, id ∈ returned ↔ (id < n)%N) →
  (∀ id, is_Some (callbacks d !! id) → id ∈ returned) →
  (nextCallbackId r.1 = n' mod UINT_MODULUS)%N ∧
  (∀ id, id ∈ r.2 ↔ (id < n')%N) ∧
  (∀ id, is_Some (callbacks r.1 !! id) → id ∈ r.2) ∧
  r.2 = returned ++ (N.of_nat <$> seq (length returned) (length r.2 - length returned)).
Proof.
  revert d returned. induction calls as [|[f|id] calls IH]; intros d returned; cbv zeta.
  - intros _ Hnext Hret Hreg. simpl. rewrite Nat.sub_diag. simpl. by rewrite app_nil_r.
  - cbn [dispatch]. cbv zeta.
    pose proof (dispatch_length calls (connect f d).2 (returned ++ [(connect f d).1])) as Hlen.
    specialize (IH (connect f d).2 (returned ++ [(connect f d).1])). cbv zeta in IH.
    set (r := dispatch calls (connect f d).2 (returned ++ [(connect f d).1])) in *.
    clearbody r. rewrite length_app in Hlen, IH. simpl in Hlen, IH.
    intros Hle Hnext Hret Hreg.
    assert (Hn : nextCallbackId d = N.of_nat (length returned)).
    { rewrite Hnext. apply N.mod_small. lia. }
    destruct IH as (H1 & H2 & H3 & H4).
    + done.
    + unfold uint_succ. rewrite Hn. f_equal. lia.
    + intros id. rewrite elem_of_app, list_elem_of_singleton, Hret, Hn. lia.
    + intros id. rewrite elem_of_app, list_elem_of_singleton.
      destruct (decide (id = nextCallbackId d)) as [->|Hne]; [by right|].
      rewrite lookup_insert_ne by done. intros Hid. left. by apply Hreg.
    + split; [done|]. split; [done|]. split; [done|].
      rewrite H4 at 1. rewrite <- app_assoc. f_equal.
      replace (length r.2 - length returned) with (S (length r.2 - (length returned + 1)))
        by lia.
      cbn [seq fmap list_fmap app]. rewrite Hn, Nat.add_1_r. done.
  - cbn [dispatch]. intros Hle Hnext Hret Hreg. apply IH; [done|done|done|].
    intros id'. simpl. intros [cb Hcb]. apply Hreg.
    apply lookup_delete_Some in Hcb as [_ Hcb]. eauto.
Qed.

(** X8: on a dispatcher that started out new, whatever was connected and
    disconnected since, as long as [connect] returned fewer than [2^32]
    times: the identifiers it returned are 0, 1, 2, ... in this order, so
    no two of them are equal; [connect(f)] returns the next number, under
    which nothing is registered and which an earlier [connect] never
    returned, disconnected since or not; it adds one subscription and leaves
    all the others; and only identifiers that [connect] returned are
    registered. *)
Theorem connect_returns_unused_id (calls : list (DispatcherCall Callback)) (f : Callback) :
  let d := (dispatch calls EventDispatcher_new []).1 in
  let returned := (dispatch calls EventDispatcher_new []).2 in
  let r := connect f d in
  (N.of_nat (length returned) < UINT_MODULUS)%N →
  returned = N.of_nat <$> seq 0 (length returned) ∧
  NoDup returned ∧
  r.1 = N.of_nat (length returned) ∧
  (r.1 ∉ returned) ∧
  callbacks d !! r.1 = None ∧
  (∀ id, is_Some (callbacks d !! id) → id ∈ returned) ∧
  size (callbacks r.2) = S (size (callbacks d)) ∧
  callbacks r.2 !! r.1 = Some f ∧
  (∀ id, id ≠ r.1 → callbacks r.2 !! id = callbacks d !! id).
Proof.
  intros d returned r Hlt.
  destruct (dispatch_tracks calls EventDispatcher_new []) as (Hnext & Hret & Hreg & Hseq).
  { fold returned. lia. }
  { done. }
  { intros id. rewrite elem_of_nil. simpl. lia. }
  { intros id [cb Hcb]. simpl in Hcb. by rewrite lookup_empty in Hcb. }
  fold d returned in Hnext, Hret, Hreg, Hseq. simpl in Hseq. rewrite Nat.sub_0_r in Hseq.
  rewrite N.mod_small in Hnext by done.
  assert (Hfree : callbacks d !! nextCallbackId d = None).
  { destruct (callbacks d !! nextCallbackId d) as [cb|] eqn:E; [|done].
    assert (Hin : nextCallbackId d ∈ returned) by (apply Hreg; eauto).
    apply Hret in Hin. lia. }
  subst r. simpl. split; [done|]. split.
  { rewrite Hseq. apply NoDup_fmap_2; [intros x y; apply Nat2N.inj|apply NoDup_seq]. }
  split; [done|]. split.
  { rewrite Hret. lia. }
  split; [done|]. split; [done|]. split.
  { by rewrite map_size_insert_None. }
  split; [by rewrite lookup_insert_eq|].
  intros id Hne. by rewrite lookup_insert_ne.
Qed.

(** ** Entities that hold no component yet *)

Lemma stored_issued_put T s w issued :
  (∀ e, is_Some (items s !! e) → e ∈ issued) →
  stored_issued w issued → stored_issued (put T s w) issued.
Proof.
  intros Hs Hw T' s' e. rewrite lookup_put. destruct (decide (T = T')) as [<-|_].
  - intros [= <-]. apply Hs.
  - apply Hw.
Qed.

Lemma stored_issued_storage_of T w issued e :
  stored_issued w issued → is_Some (items (storage_of T w) !! e) → e ∈ issued.
Proof.
  intros Hw. unfold storage_of. destruct (componentStorage w !! T) as [s|] eqn:E; simpl.
  - by apply (Hw T).
  - intros [c Hc]. by rewrite lookup_empty in Hc.
Qed.

Lemma stored_issued_app w issued issued' :
  stored_issued w issued → stored_issued w (issued ++ issued').
Proof. intros Hw T s e Hs He. apply elem_of_app. left. by eapply Hw. Qed.

Section Fresh.

(** Subscribers reach the counter and the set of live entities through
    [createEntity] and [destroyEntity] only, and give components to issued
    entities only: called for an issued entity, in a world whose counter is
    where the identifiers issued leave it and in which only issued entities
    hold components, they leave such a world, for the identifiers issued
    before followed by the ones [createEntity] returned to them. *)
Hypothesis invoke_fresh :
  ∀ cb w e issued,
    e ∈ issued → counter_tracks w issued → stored_issued w issued →
    counter_tracks (world_after (invoke cb w e)) (issued ++ created (invoke cb w e)) ∧
    stored_issued (world_after (invoke cb w e)) (issued ++ created (invoke cb w e)).

Lemma delivery_fresh p T e w issued :
  e ∈ issued → counter_tracks w issued → stored_issued w issued →
  counter_tracks (world_after (delivery p T e w)) (issued ++ created (delivery p T e w)) ∧
  stored_issued (world_after (delivery p T e w)) (issued ++ created (delivery p T e w)).
Proof.
  intros He Hc Hs.
  pose proof (delivery_created_ind
                (λ w' iss, e ∈ iss ∧ counter_tracks w' iss ∧ stored_issued w' iss)
                p T e w issued) as Hind.
  destruct Hind as (_ & Hc' & Hs'); [done| |done].
  intros w' cs' id cb (He' & Hc' & Hs') _.
  destruct (invoke_fresh cb w' e cs' He' Hc' Hs'). split; [|done].
  apply elem_of_app. by left.
Qed.

Lemma delivery_fresh_put p T e s w issued :
  e ∈ issued → counter_tracks w issued → stored_issued w issued →
  (∀ e', is_Some (items s !! e') → e' ∈ issued) →
  counter_tracks (world_after (delivery p T e (put T s w)))
                 (issued ++ created (delivery p T e (put T s w))) ∧
  stored_issued (world_after (delivery p T e (put T s w)))
                (issued ++ created (delivery p T e (put T s w))).
Proof.
  intros He Hc Hs Hitems. apply delivery_fresh; [done| |].
  - by apply (counter_tracks_frame w).
  - by apply stored_issued_put.
Qed.

Lemma call_fresh (c : Call Component Callback) w issued :
  match c with Assign _ entity _ | Remove _ entity => entity ∈ issued | _ => True end →
  counter_tracks w issued → stored_issued w issued →
  counter_tracks (world_after (call c w)) (issued ++ created (call c w)) ∧
  stored_issued (world_after (call c w)) (issued ++ created (call c w)).
Proof.
  intros Hissued Hc Hs.
  pose proof (λ T e, stored_issued_storage_of T w issued e Hs) as Hof.
  assert (Hstay : ∀ w', nextEntityId w' = nextEntityId w → entities w' ⊆ entities w →
                        stored_issued w' issued →
                        counter_tracks w' (issued ++ []) ∧ stored_issued w' (issued ++ [])).
  { intros w' Hn He Hs'. rewrite app_nil_r. split; [|done].
    by apply (counter_tracks_frame w). }
  destruct c as [T e c|T e f|T e f|T e|T e|T e| | |e|Ts|p T|p T f|p T id]; simpl.
  - rewrite assign_eq. cbv zeta. simpl_result. apply delivery_fresh_put; [done..|].
    intros e'. unfold insert_or_assign; simpl.
    destruct (decide (e = e')) as [<-|Hne]; [done|].
    rewrite lookup_insert_ne by done. apply Hof.
  - rewrite transform_eq. destruct (items (storage_of T w) !! e) as [c|] eqn:E.
    + assert (He : e ∈ issued) by (apply (Hof T); eauto).
      cbv zeta. simpl_result. apply delivery_fresh_put; [done..|].
      intros e'. unfold store; simpl.
      destruct (decide (e = e')) as [<-|Hne]; [done|].
      rewrite lookup_insert_ne by done. apply Hof.
    + simpl_result. by apply Hstay.
  - rewrite patch_eq. destruct (items (storage_of T w) !! e) as [c|] eqn:E.
    + assert (He : e ∈ issued) by (apply (Hof T); eauto).
      cbv zeta. simpl_result. apply delivery_fresh_put; [done..|].
      intros e'. unfold store; simpl.
      destruct (decide (e = e')) as [<-|Hne]; [done|].
      rewrite lookup_insert_ne by done. apply Hof.
    + simpl_result. by apply Hstay.
  - unfold_M. destruct (get T e w); cbn [fst snd]; by apply Hstay.
  - unfold_M. destruct (has T e w); cbn [fst snd]; by apply Hstay.
  - rewrite remove_eq. cbv zeta.
    destruct (delivery_fresh_put OnRemove T e (storage_of T w) w issued Hissued Hc Hs
                (Hof T)) as [Hc' Hs'].
    destruct (outcome _) as [[]|f]; [|done].
    destruct (componentStorage _ !! T) as [s'|] eqn:E; simpl_result; [|done]. split.
    + by eapply counter_tracks_frame; [| |exact Hc'].
    + apply stored_issued_put; [|done]. intros e' [c Hc'']. unfold erase in Hc''; simpl in Hc''.
      apply lookup_delete_Some in Hc'' as [_ Hc'']. eapply Hs'; eauto.
  - unfold_M. cbn [fst snd]. by apply Hstay.
  - unfold_M. cbn [fst snd app]. split.
    + by apply counter_tracks_createEntity.
    + by apply stored_issued_app.
  - unfold destroyEntity. simpl_result. apply Hstay; [done|simpl; set_solver|].
    intros T s' e'. simpl. rewrite lookup_fmap.
    destruct (componentStorage w !! T) as [s|] eqn:E; simpl; [|done].
    intros [= <-] [c Hc']. simpl in Hc'. apply lookup_delete_Some in Hc' as [_ Hc'].
    eapply Hs; eauto.
  - unfold_M. destruct (view Ts w); cbn [fst snd]; by apply Hstay.
  - unfold_M. rewrite on_phase_eq. cbn [fst snd app]. apply Hstay; [done..|].
    apply stored_issued_put; [apply Hof|done].
  - unfold_M. rewrite on_phase_eq, connect_at_put. cbn [fst snd app]. apply Hstay; [done..|].
    apply stored_issued_put; [|done]. intros e'. destruct p; apply Hof.
  - unfold_M. rewrite on_phase_eq. unfold disconnect_at. cbn [fst snd].
    rewrite on_storage_put. cbn [fst snd app]. apply Hstay; [done..|].
    apply stored_issued_put; [|done]. intros e'. destruct p; apply Hof.
Qed.

Lemma run_fresh (calls : list (Call Component Callback)) w issued :
  calls_for_issued calls w issued → counter_tracks w issued → stored_issued w issued →
  counter_tracks (run calls w issued).1 (run calls w issued).2 ∧
  stored_issued (run calls w issued).1 (run calls w issued).2.
Proof.
  revert w issued. induction calls as [|c calls IH]; intros w issued Hcalls Hc Hs; [done|].
  destruct Hcalls as [Hissued Hcalls]. cbn [run]. cbv zeta.
  destruct (call_fresh c w issued Hissued Hc Hs) as [Hc' Hs']. by apply IH.
Qed.

Lemma stored_issued_new : stored_issued (@World_new Component Callback) [].
Proof. intros T s e Hs. simpl in Hs. by rewrite lookup_empty in Hs. Qed.

(** X9: in a session that starts from a new world, in which [assign] and
    [remove] were only called for entities that [createEntity] had
    returned, whose subscribers create and destroy entities as they like
    but give components to issued entities only, and in which
    [createEntity] returned fewer than [2^32] times so far: the entity
    [createEntity] returns holds no component, [has<T>] is false for it and
    [get<T>] throws [std::out_of_range], for every [T].  [createEntity]
    changes no component of any entity. *)
Theorem created_entity_holds_nothing (calls : list (Call Component Callback)) :
  let w := (run calls World_new []).1 in
  let issued := (run calls World_new []).2 in
  let r := createEntity w in
  calls_for_issued calls World_new [] →
  (N.of_nat (length issued) < UINT_MODULUS)%N →
  ∃ newEntity,
    outcome r = Return newEntity ∧
    (∀ T, has T newEntity (world_after r) = Return false ∧
          get T newEntity (world_after r) = Raise out_of_range) ∧
    (∀ T e, has T e (world_after r) = has T e w ∧ get T e (world_after r) = get T e w).
Proof.
  intros w issued r Hcalls Hlt.
  destruct (run_fresh calls World_new [] Hcalls counter_tracks_new stored_issued_new)
    as [Htr Hst].
  fold w issued in Htr, Hst. destruct Htr as (Hnext & Hissued & _); [lia|].
  rewrite N.mod_small in Hnext by done.
  assert (Hsame : ∀ T e, has T e (world_after r) = has T e w ∧
                         get T e (world_after r) = get T e w).
  { intros T e. subst r. by rewrite !has_eq, !get_eq. }
  exists {| entityId := nextEntityId w |}. split; [done|]. split; [|done].
  intros T. destruct (Hsame T {| entityId := nextEntityId w |}) as [-> ->].
  rewrite has_eq, get_eq. unfold contains, at_.
  destruct (items (storage_of T w) !! _) as [c|] eqn:E.
  - exfalso. assert (Hin : {| entityId := nextEntityId w |} ∈ issued).
    { eapply stored_issued_storage_of; [apply Hst|eauto]. }
    apply Hissued in Hin. simpl in Hin. lia.
  - split; [|done]. f_equal.
Qed.

(** Subscribers that keep the mapping and the membership set of every
    storage equal. *)
Hypothesis invoke_in_sync :
  ∀ cb w e, storages_in_sync w → storages_in_sync (world_after (invoke cb w e)).

(** X13: in such a session, whose subscribers also keep the storages in
    step, as long as [createEntity] returned fewer than [2^32] times:
    [createEntity] followed by [destroyEntity] of the entity it returned
    leaves the live entities and every storage, with its components and
    subscriptions, exactly as they were; only the counter of identifiers
    has advanced, so that the identifier is not handed out again. *)
Theorem create_then_destroy_restores (calls : list (Call Component Callback)) :
  let w := (run calls World_new []).1 in
  let issued := (run calls World_new []).2 in
  let r := createEntity w in
  calls_for_issued calls World_new [] →
  (N.of_nat (length issued) < UINT_MODULUS)%N →
  ∃ newEntity,
    outcome r = Return newEntity ∧
    let w' := world_after (destroyEntity newEntity (world_after r)) in
    entities w' = entities w ∧
    componentStorage w' = componentStorage w ∧
    nextEntityId w' = uint_succ (nextEntityId w) ∧
    nextEntityId w' ≠ nextEntityId w.
Proof.
  intros w issued r Hcalls Hlt.
  destruct (run_fresh calls World_new [] Hcalls counter_tracks_new stored_issued_new)
    as [Htr Hst'].
  pose proof (run_in_sync invoke_in_sync calls World_new [] storages_in_sync_new) as Hsync.
  fold w issued in Htr, Hst'. fold w in Hsync.
  destruct Htr as (Hnext & Hissued & Hlive); [lia|].
  rewrite N.mod_small in Hnext by done.
  set (e := {| entityId := nextEntityId w |}).
  assert (Hfresh : e ∉ issued).
  { rewrite Hissued. simpl. lia. }
  exists e. split; [done|]. cbv zeta.
  unfold destroyEntity, world_after, r; cbn [fst snd createEntity nextEntityId entities
                                              componentStorage].
  fold e. split; [|split; [|split; [done|]]].
  - assert (e ∉ entities w) by (intros Hin; by apply Hfresh, Hlive). set_solver.
  - apply map_eq. intros T. rewrite lookup_fmap.
    destruct (componentStorage w !! T) as [s|] eqn:Es; simpl; [|done]. f_equal.
    assert (Hnone : items s !! e = None).
    { destruct (items s !! e) as [c|] eqn:Ec; [|done].
      exfalso. apply Hfresh. eapply Hst'; eauto. }
    pose proof (Hsync T s Es) as Hs. unfold in_sync in Hs.
    apply erase_absent; [done|]. rewrite <- Hs. by apply not_elem_of_dom.
  - unfold uint_succ. rewrite Hnext.
    destruct (decide (N.of_nat (length issued) + 1 = UINT_MODULUS)%N) as [Heq|Hne].
    + rewrite Heq, N.Div0.mod_same. unfold UINT_MODULUS in *. lia.
    + rewrite N.mod_small by lia. lia.
Qed.

End Fresh.

(** ** A view of no type *)

(** X11: [view<>()], of no component type, never fails, but the table of
    the view it returns is empty: [each] and the range-based [for] both
    start by taking the first item of it, from [storages.begin()], which is
    [storages.end()], and calling [f] or running the body is never
    reached. *)
Theorem view_of_no_type_has_no_base {St} w fuel
    (f : Entity → list Component → St → St)
    (body : Reference Entity → list Component → St → Outcome St) (acc : St) :
  ∃ v, view [] w = Return v ∧
       storages v = ∅ ∧
       base v = Raise undefined ∧
       each v f acc = Raise undefined ∧
       range_for fuel v body acc = Some (Raise undefined, acc, []).
Proof.
  eexists. split; [reflexivity|]. split; [done|].
  assert (Hbase : base (View_new [] []) = Raise (A := Storage Component Callback) undefined).
  { unfold base, View_new. simpl. by rewrite hash_order_empty. }
  simpl.
  split; [done|]. split.
  - unfold each. by rewrite Hbase.
  - unfold range_for, begin. by rewrite Hbase.
Qed.

(** ** Storages and subscriptions stay *)

Lemma subscribers_put_keep q T T' (g : Storage Component Callback → Storage Component Callback) w :
  (T = T' → ∀ s, dispatcher q (g s) = dispatcher q s) →
  subscribers q T' (put T (g (storage_of T w)) w) = subscribers q T' w.
Proof.
  intros Hg. destruct (decide (T = T')) as [<-|Hne].
  - apply subscribers_put_storage_of. by apply Hg.
  - by apply subscribers_put_ne.
Qed.

Lemma dispatcher_set_dispatcher_ne p q d s :
  p ≠ q → dispatcher q (set_dispatcher p d s) = dispatcher q s.
Proof. by destruct p, q. Qed.

Section Kept.

(** Subscribers that drop no storage and leave the subscriptions alone. *)
Hypothesis invoke_keeps :
  ∀ cb w e,
    (∀ T, hasStorage T w = true → hasStorage T (world_after (invoke cb w e)) = true) ∧
    (∀ p T, subscribers p T (world_after (invoke cb w e)) = subscribers p T w).

Lemma delivery_keeps p T e w :
  (∀ T', hasStorage T' w = true → hasStorage T' (world_after (delivery p T e w)) = true) ∧
  (∀ q T', subscribers q T' (world_after (delivery p T e w)) = subscribers q T' w).
Proof.
  apply (delivery_ind (λ w', (∀ T', hasStorage T' w = true → hasStorage T' w' = true) ∧
                             (∀ q T', subscribers q T' w' = subscribers q T' w))); [done|].
  intros w' id cb _ [Hst Hsub] _. destruct (invoke_keeps cb w' e) as [Hst' Hsub'].
  split; [intros T' HT'; by apply Hst', Hst|].
  intros q T'. by rewrite Hsub'.
Qed.

Lemma put_delivery_keeps p q T T' e (g : Storage Component Callback → Storage Component Callback) w :
  (T = T' → ∀ s, dispatcher q (g s) = dispatcher q s) →
  let w' := world_after (delivery p T e (put T (g (storage_of T w)) w)) in
  (hasStorage T' w = true → hasStorage T' w' = true) ∧
  hasStorage T w' = true ∧
  subscribers q T' w' = subscribers q T' w.
Proof.
  intros Hg w'. destruct (delivery_keeps p T e (put T (g (storage_of T w)) w)) as [Hst Hsub].
  split; [|split].
  - intros HT'. apply Hst, hasStorage_put. by right.
  - apply Hst, hasStorage_put. by left.
  - subst w'. rewrite Hsub. by apply subscribers_put_keep.
Qed.

(** X12: provided the subscribers drop no storage and change no
    subscription, no member function drops a storage, and a subscription
    is only ever changed by [connect] and [disconnect] on the very
    dispatcher it is made with: whatever else is called, failing or not,
    and also when the entities that were there are all destroyed, the same
    callbacks stay subscribed under the same identifiers.  A storage for
    [T] is there after [assign<T>], [remove<T>] or one of [onCreate<T>],
    [onUpdate<T>], [onRemove<T>] was called. *)
Theorem subscriptions_stay (c : Call Component Callback) w :
  let w' := world_after (call c w) in
  (∀ T, hasStorage T w = true → hasStorage T w' = true) ∧
  (∀ p T, match c with
          | Connect p' T' _ | Disconnect p' T' _ => (p', T') ≠ (p, T)
          | _ => True
          end → subscribers p T w' = subscribers p T w) ∧
  match c with
  | Assign T _ _ | Remove T _ | Dispatcher _ T | Connect _ T _ | Disconnect _ T _ =>
      hasStorage T w' = true
  | _ => True
  end.
Proof.
  intros w'. subst w'.
  destruct c as [T e c|T e f|T e f|T e|T e|T e| | |e|Ts|p T|p T f|p T id]; simpl.
  - rewrite assign_eq. cbv zeta. simpl_result.
    set (p := if contains e (storage_of T w) then OnUpdate else OnCreate).
    split; [|split].
    + intros T' HT'. by apply (put_delivery_keeps p OnCreate T T' e (insert_or_assign e c) w).
    + intros q T' _. by apply (put_delivery_keeps p q T T' e (insert_or_assign e c) w).
    + by apply (put_delivery_keeps p OnCreate T T e (insert_or_assign e c) w).
  - rewrite transform_eq. destruct (items (storage_of T w) !! e) as [c|]; [|done].
    cbv zeta. simpl_result. split; [|split; [|done]].
    + intros T' HT'. by apply (put_delivery_keeps _ OnCreate T T' e (store e (f c)) w).
    + intros q T' _. by apply (put_delivery_keeps _ q T T' e (store e (f c)) w).
  - rewrite patch_eq. destruct (items (storage_of T w) !! e) as [c|]; [|done].
    cbv zeta. simpl_result. split; [|split; [|done]].
    + intros T' HT'. by apply (put_delivery_keeps _ OnCreate T T' e (store e (f c)) w).
    + intros q T' _. by apply (put_delivery_keeps _ q T T' e (store e (f c)) w).
  - unfold_M. by destruct (get T e w).
  - unfold_M. by destruct (has T e w).
  - rewrite remove_eq. cbv zeta.
    pose proof (λ q T', put_delivery_keeps OnRemove q T T' e (λ s, s) w (λ _ _, eq_refl))
      as Hn. cbv zeta in Hn.
    set (d := delivery OnRemove T e (put T (storage_of T w) w)) in *.
    destruct (Hn OnRemove T) as (_ & [s1 Hs1]%hasStorage_true & _).
    assert (Hkept : (∀ T', hasStorage T' w = true → hasStorage T' (world_after d) = true) ∧
                    (∀ q T', subscribers q T' (world_after d) = subscribers q T' w) ∧
                    hasStorage T (world_after d) = true).
    { split; [|split].
      - intros T'. apply (Hn OnRemove T').
      - intros q T'. apply (Hn q T').
      - apply (Hn OnRemove T). }
    destruct (outcome d) as [[]|f]; [|simpl_result; by destruct Hkept as (? & ? & ?)].
    rewrite Hs1. simpl_result.
    assert (Hput : put T (erase e s1) (world_after d)
                   = put T (erase e (storage_of T (world_after d))) (world_after d)).
    { unfold storage_of. by rewrite Hs1. }
    rewrite Hput. destruct Hkept as (Hst & Hsub & _). split; [|split].
    + intros T' HT'. apply hasStorage_put. right. by apply Hst.
    + intros q T' _. rewrite (subscribers_put_keep q T T' (erase e) (world_after d)) by done.
      apply Hsub.
    + apply hasStorage_put. by left.
  - done.
  - done.
  - unfold destroyEntity. simpl_result. split; [|split; [|done]].
    + intros T. rewrite !hasStorage_true. simpl. rewrite lookup_fmap.
      intros [s ->]. simpl. eauto.
    + intros q T _. unfold subscribers. simpl. rewrite lookup_fmap.
      destruct (componentStorage w !! T) as [s|]; simpl; [|done]. by destruct q.
  - unfold_M. by destruct (view Ts w).
  - unfold_M. rewrite on_phase_eq. cbn [fst snd]. split; [|split].
    + intros T' HT'. apply hasStorage_put. by right.
    + intros q T' _. by apply (subscribers_put_keep q T T' (λ s, s) w).
    + apply hasStorage_put. by left.
  - unfold_M. rewrite on_phase_eq, connect_at_put. cbn [fst snd]. split; [|split].
    + intros T' HT'. apply hasStorage_put. by right.
    + intros q T' Hne.
      apply (subscribers_put_keep q T T'
               (λ s, set_dispatcher p (connect f (dispatcher p s)).2 s) w).
      intros <- s. apply dispatcher_set_dispatcher_ne. congruence.
    + apply hasStorage_put. by left.
  - unfold_M. rewrite on_phase_eq. unfold disconnect_at. cbn [fst snd].
    rewrite on_storage_put. cbn [fst snd]. split; [|split].
    + intros T' HT'. apply hasStorage_put. by right.
    + intros q T' Hne.
      apply (subscribers_put_keep q T T'
               (λ s, set_dispatcher p (disconnect id (dispatcher p s)) s) w).
      intros <- s. apply dispatcher_set_dispatcher_ne. congruence.
    + apply hasStorage_put. by left.
Qed.

End Kept.

End Facts.

(** ** The order of a hash table *)

Section Orders.

Context {Component Callback : Type}.
Context {subs : Subscribers Component Callback}.

Lemma foldl_commute {A B} (f : A → B → A) (l1 l2 : list B) :
  l1 ≡ₚ l2 →
  (∀ a x y, f (f a x) y = f (f a y) x) →
  ∀ a, foldl f a l1 = foldl f a l2.
Proof.
  intros Hperm Hf. induction Hperm as [|x l1 l2 _ IH|x y l|l1 l2 l3 _ IH1 _ IH2]; intros a.
  - done.
  - simpl. apply IH.
  - simpl. by rewrite Hf.
  - by rewrite IH1.
Qed.

(** Subscribers that return, *)
Hypothesis invoke_returns :
  ∀ cb (w : World Component Callback) e, outcome (invoke cb w e) = Return ().

(** leave the subscriptions alone, *)
Hypothesis invoke_keeps :
  ∀ cb (w : World Component Callback) e p T,
    subscribers p T (world_after (invoke cb w e)) = subscribers p T w.

(** and of which, called for the same entity, any two can be called in
    either order: the world they leave and the identifiers issued are the
    same. *)
Hypothesis invoke_commute :
  ∀ cb1 cb2 (w : World Component Callback) e,
    let w1 := world_after (invoke cb1 w e) in
    let w2 := world_after (invoke cb2 w e) in
    world_after (invoke cb2 w1 e) = world_after (invoke cb1 w2 e) ∧
    created (invoke cb1 w e) ++ created (invoke cb2 w1 e) =
    created (invoke cb2 w e) ++ created (invoke cb1 w2 e).

Lemma called_commute e (a : World Component Callback * list Entity) cb1 cb2 :
  called e (called e a cb1) cb2 = called e (called e a cb2) cb1.
Proof.
  destruct a as [w cs]. unfold called. cbn [fst snd].
  destruct (invoke_commute cb1 cb2 w e) as [Hw Hcs]. cbv zeta in Hw, Hcs.
  rewrite Hw. f_equal. rewrite <- !app_assoc. by rewrite Hcs.
Qed.

(** With such subscribers the loop of [publish] calls the callbacks that
    are in the table when it starts, one after the other. *)
Lemma deliver_fold p T e pending (w : World Component Callback) cs :
  let r := deliver (T, p) e pending w in
  outcome r = Return () ∧
  (world_after r, cs ++ created r) =
  foldl (called e) (w, cs) (omap (λ id, subscribers p T w !! id) pending).
Proof.
  revert w cs. induction pending as [|id pending IH]; intros w cs; cbn [deliver fst snd].
  - cbn. by rewrite app_nil_r.
  - cbn [omap list_omap]. destruct (subscribers p T w !! id) as [cb|] eqn:Hcb; [|apply IH].
    cbv zeta. rewrite invoke_returns.
    assert (Hvalid : still_valid id (subscribers p T w)
                       (subscribers p T (world_after (invoke cb w e))) = true).
    { rewrite invoke_keeps. by eapply still_valid_same. }
    rewrite Hvalid. cbn [foldl]. unfold called at 2. cbn [fst snd].
    destruct (IH (world_after (invoke cb w e)) (cs ++ created (invoke cb w e))) as [Hret Hfold].
    rewrite invoke_keeps in Hfold. rewrite <- Hfold.
    rewrite outcome_eq, world_after_eq, created_eq.
    split; [done|]. by rewrite app_assoc.
Qed.

Lemma omap_lookup_keys {A} (tbl : gmap N A) (l : list (N * A)) :
  (∀ item, item ∈ l → tbl !! item.1 = Some item.2) →
  omap (λ id, tbl !! id) l.*1 = l.*2.
Proof.
  induction l as [|[id x] l IH]; intros Hl; [done|].
  cbn [fmap list_fmap omap list_omap fst snd].
  pose proof (Hl (id, x)) as Hx. cbn [fst snd] in Hx. rewrite Hx by left.
  f_equal. apply IH.
  intros item Hitem. apply Hl. by right.
Qed.

Lemma delivery_order (o1 o2 : HashOrder) p T e (w : World Component Callback) :
  outcome (delivery (order := o1) p T e w) = outcome (delivery (order := o2) p T e w) ∧
  world_after (delivery (order := o1) p T e w) = world_after (delivery (order := o2) p T e w) ∧
  created (delivery (order := o1) p T e w) = created (delivery (order := o2) p T e w).
Proof.
  unfold delivery.
  destruct (deliver_fold p T e (hash_order (HashOrder := o1) _ (subscribers p T w)).*1 w [])
    as [Hret1 Hfold1].
  destruct (deliver_fold p T e (hash_order (HashOrder := o2) _ (subscribers p T w)).*1 w [])
    as [Hret2 Hfold2].
  rewrite Hret1, Hret2. split; [done|].
  rewrite omap_lookup_keys in Hfold1
    by (intros item Hitem; by apply hash_order_lookup in Hitem).
  rewrite omap_lookup_keys in Hfold2
    by (intros item Hitem; by apply hash_order_lookup in Hitem).
  rewrite (foldl_commute (called e) _ (hash_order (HashOrder := o2) _ (subscribers p T w)).*2)
    in Hfold1.
  - rewrite <- Hfold2 in Hfold1. cbn [app] in Hfold1. by injection Hfold1.
  - apply fmap_Permutation. by rewrite !hash_order_perm.
  - intros a x y. apply called_commute.
Qed.

Lemma result_eq {A} (r r' : Outcome A * World Component Callback
                             * list (Event Component Callback) * list Entity) :
  outcome r = outcome r' → world_after r = world_after r' → fired r = fired r' →
  created r = created r' → r = r'.
Proof.
  destruct r as [[[o w] l] cs], r' as [[[o' w'] l'] cs'].
  unfold outcome, world_after, fired, created. cbn [fst snd]. by intros -> -> -> ->.
Qed.

(** X10: the order in which [publish] goes through the callbacks of a
    dispatcher is that of a [std::unordered_map], which is unspecified.
    When the subscribers return, leave the subscriptions alone and any two
    of them can be called in either order, that order shows in nothing:
    [publish], every member function of the world and every session of
    calls give the same result, leave the same world, publish the same
    events and issue the same identifiers, whichever order the tables are
    gone through in. *)
Theorem publish_order_is_irrelevant (o1 o2 : HashOrder) :
  (∀ p T e (w : World Component Callback),
     publish (order := o1) (T, p) e w = publish (order := o2) (T, p) e w) ∧
  (∀ (c : Call Component Callback) w,
     call (order := o1) c w = call (order := o2) c w) ∧
  (∀ (calls : list (Call Component Callback)) w issued,
     run (order := o1) calls w issued = run (order := o2) calls w issued).
Proof.
  assert (Hd : ∀ p T e (w : World Component Callback),
            delivery (order := o1) p T e w = delivery (order := o2) p T e w).
  { intros p T e w. destruct (delivery_order o1 o2 p T e w) as (Ho & Hw & Hc).
    apply result_eq; [done|done| |done].
    unfold delivery. by rewrite !deliver_fired. }
  assert (Hpublish : ∀ p T e (w : World Component Callback),
            publish (order := o1) (T, p) e w = publish (order := o2) (T, p) e w).
  { intros p T e w. unfold publish. cbn [fst snd].
    destruct (getStorage T w) as [s|] eqn:Es; [|done].
    assert (Htbl : callbacks (dispatcher p s) = subscribers p T w).
    { unfold subscribers. unfold getStorage in Es.
      destruct (componentStorage w !! T); [by injection Es as ->|done]. }
    rewrite Htbl. fold (delivery (order := o1) p T e w) (delivery (order := o2) p T e w).
    by rewrite Hd. }
  assert (Hcall : ∀ (c : Call Component Callback) w,
            call (order := o1) c w = call (order := o2) c w).
  { intros c w. destruct c; simpl; try reflexivity.
    - rewrite (assign_eq (order := o1)), (assign_eq (order := o2)). cbv zeta.
      by rewrite Hd.
    - rewrite (transform_eq (order := o1)), (transform_eq (order := o2)).
      destruct (items _ !! _); [|done]. cbv zeta. by rewrite Hd.
    - rewrite (patch_eq (order := o1)), (patch_eq (order := o2)).
      destruct (items _ !! _); [|done]. cbv zeta. by rewrite Hd.
    - rewrite (remove_eq (order := o1)), (remove_eq (order := o2)). cbv zeta.
      by rewrite Hd. }
  split; [done|]. split; [done|].
  intros calls. induction calls as [|c calls IH]; intros w issued; [done|].
  cbn [run]. cbv zeta. rewrite (Hcall c w). apply IH.
Qed.

End Orders.

(** * The sample worlds

    The statements above at the sample worlds, and the inputs at which a
    statement of the specification does not hold of the code. *)

(** ** What the sample subscribers keep *)

Lemma quiet_observers {Component Callback} p T e (w : World Component Callback) :
  observers (subs := Sample.quiet) p T e w.
Proof. by intros id cb _. Qed.

Lemma quiet_assign {Component Callback} (order : HashOrder) T e (v : Component)
    (w : World Component Callback) :
  world_after (assign (subs := Sample.quiet) T e v w) =
  put T (insert_or_assign e v (storage_of T w)) w.
Proof.
  rewrite assign_eq. cbv zeta. rewrite world_after_eq.
  set (p := if contains e (storage_of T w) then OnUpdate else OnCreate).
  set (w1 := put T (insert_or_assign e v (storage_of T w)) w).
  by destruct (delivery_observers (subs := Sample.quiet) p T e w1 (quiet_observers p T e w1)).
Qed.

Lemma quiet_assign_result {Component Callback} (order : HashOrder) T e (v : Component)
    (w : World Component Callback) :
  outcome (assign (subs := Sample.quiet) T e v w) = Return () ∧
  created (assign (subs := Sample.quiet) T e v w) = [].
Proof.
  rewrite assign_eq. cbv zeta. rewrite outcome_eq, created_eq.
  set (p := if contains e (storage_of T w) then OnUpdate else OnCreate).
  set (w1 := put T (insert_or_assign e v (storage_of T w)) w).
  split; [apply (delivery_observers (subs := Sample.quiet)), quiet_observers|].
  apply (delivery_created_ind (subs := Sample.quiet) (order := order)
           (λ _ cs, cs = []) p T e w1 []); [done|].
  intros w' cs' id cb -> _. done.
Qed.

Lemma quiet_in_sync {Component Callback} (cb : Callback) (w : World Component Callback) e :
  storages_in_sync w →
  storages_in_sync (world_after (invoke (Subscribers := Sample.quiet) cb w e)).
Proof. done. Qed.

Lemma quiet_counter {Component Callback} (cb : Callback) (w : World Component Callback) e issued :
  counter_tracks w issued →
  counter_tracks (world_after (invoke (Subscribers := Sample.quiet) cb w e))
                 (issued ++ created (invoke (Subscribers := Sample.quiet) cb w e)).
Proof. intros Hw. unfold invoke, Sample.quiet. by rewrite world_after_eq, created_eq, app_nil_r. Qed.

Lemma quiet_fresh {Component Callback} (cb : Callback) (w : World Component Callback) e issued :
  e ∈ issued → counter_tracks w issued → stored_issued w issued →
  counter_tracks (world_after (invoke (Subscribers := Sample.quiet) cb w e))
                 (issued ++ created (invoke (Subscribers := Sample.quiet) cb w e)) ∧
  stored_issued (world_after (invoke (Subscribers := Sample.quiet) cb w e))
                (issued ++ created (invoke (Subscribers := Sample.quiet) cb w e)).
Proof.
  intros _ Hc Hs. unfold invoke, Sample.quiet. by rewrite world_after_eq, created_eq, app_nil_r.
Qed.

Lemma session_quiet_in_sync calls : storages_in_sync (Sample.session Sample.quiet calls).
Proof.
  unfold Sample.session. apply run_in_sync.
  - apply @quiet_in_sync.
  - apply storages_in_sync_new.
Qed.

(** The subscriber that gives its entity a [float] leaves every [int] as it
    is, and keeps what the storages and the counter are held to. *)
Lemma tagging_keeps_int cb (w : World Z unit) e e' :
  get Sample.int e' (world_after (invoke (Subscribers := Sample.tagging) cb w e)) =
  get Sample.int e' w.
Proof.
  unfold invoke, Sample.tagging. rewrite quiet_assign, !get_eq.
  by rewrite storage_of_put_ne.
Qed.

Lemma tagging_in_sync cb (w : World Z unit) e :
  storages_in_sync w →
  storages_in_sync (world_after (invoke (Subscribers := Sample.tagging) cb w e)).
Proof.
  apply (call_in_sync (subs := Sample.quiet) (order := bucket_order) (@quiet_in_sync Z unit)
           (Assign Sample.float e 1%Z) w).
Qed.

Lemma tagging_fresh cb (w : World Z unit) e issued :
  e ∈ issued → counter_tracks w issued → stored_issued w issued →
  counter_tracks (world_after (invoke (Subscribers := Sample.tagging) cb w e))
                 (issued ++ created (invoke (Subscribers := Sample.tagging) cb w e)) ∧
  stored_issued (world_after (invoke (Subscribers := Sample.tagging) cb w e))
                (issued ++ created (invoke (Subscribers := Sample.tagging) cb w e)).
Proof.
  apply (call_fresh (subs := Sample.quiet) (order := bucket_order) (@quiet_fresh Z unit)
           (Assign Sample.float e 1%Z) w issued).
Qed.

(** The subscriber that creates an entity moves the counter as
    [createEntity] does. *)
Lemma creating_counter cb (w : World Z unit) e issued :
  counter_tracks w issued →
  counter_tracks (world_after (invoke (Subscribers := Sample.creating) cb w e))
                 (issued ++ created (invoke (Subscribers := Sample.creating) cb w e)).
Proof.
  apply (call_counter (subs := Sample.quiet) (order := bucket_order) (@quiet_counter Z unit)
           CreateEntity w issued).
Qed.

(** The subscriber that reads a component changes nothing. *)
Lemma getting_in_sync cb (w : World Z unit) e :
  storages_in_sync w →
  storages_in_sync (world_after (invoke (Subscribers := Sample.getting) cb w e)).
Proof.
  apply (call_in_sync (subs := Sample.quiet) (order := bucket_order) (@quiet_in_sync Z unit)
           (Get Sample.float e) w).
Qed.

Lemma awaited_in_sync : storages_in_sync Sample.awaited.
Proof.
  unfold Sample.awaited, Sample.session. apply run_in_sync.
  - apply getting_in_sync.
  - apply storages_in_sync_new.
Qed.

(** The subscribers that give their entity a [float] or a [double] return,
    leave the subscriptions alone, and can be called in either order. *)
Lemma marking_world cb (w : World Z bool) e :
  world_after (invoke (Subscribers := Sample.marking) cb w e) =
  let T := if cb then Sample.float else Sample.double in
  put T (insert_or_assign e (if cb then 1%Z else 2%Z) (storage_of T w)) w.
Proof. unfold invoke, Sample.marking. destruct cb; apply quiet_assign. Qed.

Lemma marking_returns cb (w : World Z bool) e :
  outcome (invoke (Subscribers := Sample.marking) cb w e) = Return () ∧
  created (invoke (Subscribers := Sample.marking) cb w e) = [].
Proof. unfold invoke, Sample.marking. destruct cb; apply quiet_assign_result. Qed.

Lemma marking_keeps cb (w : World Z bool) e p T :
  subscribers p T (world_after (invoke (Subscribers := Sample.marking) cb w e)) =
  subscribers p T w.
Proof.
  rewrite marking_world. cbv zeta. apply subscribers_put_keep.
  intros _ s. by destruct p.
Qed.

Lemma marking_commute cb1 cb2 (w : World Z bool) e :
  let w1 := world_after (invoke (Subscribers := Sample.marking) cb1 w e) in
  let w2 := world_after (invoke (Subscribers := Sample.marking) cb2 w e) in
  world_after (invoke (Subscribers := Sample.marking) cb2 w1 e) =
  world_after (invoke (Subscribers := Sample.marking) cb1 w2 e) ∧
  created (invoke (Subscribers := Sample.marking) cb1 w e) ++
  created (invoke (Subscribers := Sample.marking) cb2 w1 e) =
  created (invoke (Subscribers := Sample.marking) cb2 w e) ++
  created (invoke (Subscribers := Sample.marking) cb1 w2 e).
Proof.
  cbv zeta. split.
  - rewrite !marking_world. cbv zeta.
    destruct cb1, cb2; try reflexivity;
      rewrite !storage_of_put_ne by done; unfold put; simpl; f_equal;
      by apply insert_insert_ne.
  - by rewrite !(proj2 (marking_returns _ _ _)).
Qed.

Lemma tagged_in_sync : storages_in_sync Sample.tagged.
Proof.
  unfold Sample.tagged, Sample.session. apply run_in_sync.
  - apply tagging_in_sync.
  - apply storages_in_sync_new.
Qed.

(** ** The claims *)

(** The test "joint view only shows entities that have both components". *)
Example joint_view_of_the_tests :
  (v ← view [Sample.int; Sample.float] Sample.joint;
   each (order := bucket_order) v Sample.collect [])
  = Return [(Sample.e0, [0%Z; 0%Z])] ∧
  (v ← view [Sample.int] Sample.joint;
   each (order := bucket_order) v Sample.collect [])
  = Return [(Sample.e0, [0%Z]); (Sample.e1, [1%Z])].
Proof. split; vm_compute; reflexivity. Qed.

(** C1, as stated, fails: [assign<int>(e0, 5)] publishes its one event, the
    create event, the subscriber to it removes the component again, and
    [get<int>(e0)] after [assign] throws. *)
Lemma assign_then_get_throws :
  outcome (assign (subs := Sample.removing) (order := bucket_order)
                  Sample.int Sample.e0 5%Z Sample.watched)
  = Return () ∧
  ev_phase <$> fired (assign (subs := Sample.removing) (order := bucket_order)
                             Sample.int Sample.e0 5%Z Sample.watched)
  = [OnCreate] ∧
  get Sample.int Sample.e0
      (world_after (assign (subs := Sample.removing) (order := bucket_order)
                           Sample.int Sample.e0 5%Z Sample.watched))
  = Raise out_of_range.
Proof. repeat split; vm_compute; reflexivity. Qed.

(** C1 at work: in [tagged] the subscriber to the update event of [int]
    gives the entity a [float] and leaves its [int] alone, and
    [get<int>(e0)] after [assign<int>(e0, 7)] gives 7. *)
Lemma assign_stores_and_publishes_once_witness :
  get Sample.int Sample.e0
      (world_after (assign (subs := Sample.tagging) (order := bucket_order)
                           Sample.int Sample.e0 7%Z Sample.tagged))
  = Return 7%Z ∧
  has Sample.int Sample.e0
      (world_after (assign (subs := Sample.tagging) (order := bucket_order)
                           Sample.int Sample.e0 7%Z Sample.tagged))
  = Return true.
Proof.
  destruct (assign_stores_and_publishes_once (subs := Sample.tagging) (order := bucket_order)
              Sample.int Sample.e0 7%Z Sample.tagged) as (w1 & _ & _ & _ & Hkeep & _).
  apply Hkeep.
  - intros w' id cb _ _ Hget. by rewrite tagging_keeps_int.
  - vm_compute. discriminate.
Defined.

(** C3, as stated, fails: [assign] does not ask whether the entity was ever
    created; [destroyEntity] of an entity that never was, and holds an
    [int], is no no-op: it erases the [int]. *)
Lemma destroyEntity_erases_what_a_stranger_holds :
  world_size (Sample.session Sample.quiet [Assign Sample.int Sample.e0 5%Z]) = 0 ∧
  has Sample.int Sample.e0 (Sample.session Sample.quiet [Assign Sample.int Sample.e0 5%Z])
  = Return true ∧
  has Sample.int Sample.e0
      (world_after (destroyEntity Sample.e0
                      (Sample.session Sample.quiet [Assign Sample.int Sample.e0 5%Z])))
  = Return false.
Proof. repeat split; vm_compute; reflexivity. Qed.

(** C4, as stated, fails: in [probed] the subscriber to the remove event of
    [int] reads the [float] of the entity, which it does not have;
    [remove<int>(e0)] throws what the subscriber throws, and [has<int>(e0)]
    is true after the call as it was before. *)
Lemma remove_throws_and_erases_nothing :
  has Sample.int Sample.e0 Sample.probed = Return true ∧
  outcome (remove (subs := Sample.getting) (order := bucket_order)
                  Sample.int Sample.e0 Sample.probed)
  = Raise out_of_range ∧
  has Sample.int Sample.e0
      (world_after (remove (subs := Sample.getting) (order := bucket_order)
                           Sample.int Sample.e0 Sample.probed))
  = Return true.
Proof. repeat split; vm_compute; reflexivity. Qed.

(** C4 at work: in [hooked] the subscriber to the remove event of [int]
    gives the entity a [float] and returns; [remove<int>(e0)] returns, [e0]
    no longer holds an [int], and it holds the [float]. *)
Lemma remove_publishes_then_erases_witness :
  has Sample.float Sample.e0 Sample.hooked = Return false ∧
  outcome (remove (subs := Sample.tagging) (order := bucket_order)
                  Sample.int Sample.e0 Sample.hooked)
  = Return () ∧
  has Sample.int Sample.e0
      (world_after (remove (subs := Sample.tagging) (order := bucket_order)
                           Sample.int Sample.e0 Sample.hooked))
  = Return false ∧
  get Sample.float Sample.e0
      (world_after (remove (subs := Sample.tagging) (order := bucket_order)
                           Sample.int Sample.e0 Sample.hooked))
  = Return 1%Z.
Proof.
  split; [vm_compute; reflexivity|].
  destruct (remove_publishes_then_erases (subs := Sample.tagging) (order := bucket_order)
              Sample.int Sample.e0 Sample.hooked) as (_ & _ & _ & Herase & _).
  destruct Herase as (Hret & Hworld & Hhas & _).
  - vm_compute. reflexivity.
  - vm_compute. reflexivity.
  - split; [assumption|]. split; [assumption|]. rewrite Hworld. vm_compute. reflexivity.
Defined.

(** C2 at work, for [view<int>()] of [single]. *)
Lemma each_visits_the_holders_witness :
  ∃ v, view [Sample.int] Sample.single = Return v ∧
       NoDup (holders [Sample.int] Sample.single) ∧
       (∀ e, e ∈ holders [Sample.int] Sample.single ↔
             holds_all [Sample.int] e Sample.single) ∧
       (∀ e, e ∈ holders [Sample.int] Sample.single →
             Forall2 (λ T c, get T e Sample.single = Return c)
                     [Sample.int] (values [Sample.int] e Sample.single)) ∧
       (∀ (St : Type) (f : Entity → list Z → St → St) (acc : St),
          each (order := bucket_order) v f acc =
          Return (foldl (λ acc e, f e (values [Sample.int] e Sample.single) acc) acc
                        (holders [Sample.int] Sample.single))) ∧
       ((∃ T, T ∈ [Sample.int] ∧
              (hasStorage T Sample.single = false ∨
               ∀ e, has T e Sample.single = Return false)) →
        ∀ (St : Type) (f : Entity → list Z → St → St) (acc : St),
          each (order := bucket_order) v f acc = Return acc).
Proof.
  apply (each_visits_the_holders (order := bucket_order) [Sample.int] Sample.single).
  - discriminate.
  - apply session_quiet_in_sync.
Defined.

(** C5, as stated, fails: the view made of [single] passes 5 for [e0] after
    [assign<int>(e0, 6)] made [get<int>(e0)] give 6, and it still visits [e0]
    after [remove<int>(e0)] made [has<int>(e0)] false. *)
Lemma view_misses_later_changes :
  ∃ v, view [Sample.int] Sample.single = Return v ∧
       get Sample.int Sample.e0
           (world_after (assign (subs := Sample.quiet) (order := bucket_order)
                                Sample.int Sample.e0 6%Z Sample.single)) = Return 6%Z ∧
       has Sample.int Sample.e0
           (world_after (remove (subs := Sample.quiet) (order := bucket_order)
                                Sample.int Sample.e0 Sample.single)) = Return false ∧
       each (order := bucket_order) v Sample.collect [] = Return [(Sample.e0, [5%Z])].
Proof. eexists. split; [reflexivity|]. vm_compute. done. Qed.

(** C5 at work: the view of [single] is made, the client assigns to and
    then removes the [int] of [e0], and [each] runs a callback that assigns
    to the world again; it is still called for [e0], with 5. *)
Lemma view_is_a_copy_witness :
  let v := View_new [Sample.int] (viewed [Sample.int] Sample.single <$> [Sample.int]) in
  let w' := (run (subs := Sample.quiet) (order := bucket_order)
                 [Assign Sample.int Sample.e0 6%Z; Remove Sample.int Sample.e0]
                 Sample.single []).1 in
  each (order := bucket_order) v Sample.bump w' =
  Return (foldl (λ cur e, Sample.bump e (values [Sample.int] e Sample.single) cur) w'
                (holders [Sample.int] Sample.single)).
Proof.
  intros v w'.
  refine (proj2 (proj2 (view_is_a_copy (subs := Sample.quiet) (order := bucket_order)
                          [Sample.int] Sample.single v _ _ _)) _ Sample.bump).
  - discriminate.
  - apply session_quiet_in_sync.
  - apply view_eq.
Defined.

(** C7 at work: the storages of [tagged] after [remove<int>(e0)], during
    which the subscriber to the remove event assigns a [float]. *)
Lemma storages_stay_in_sync_witness :
  storages_in_sync
    (world_after (call (subs := Sample.tagging) (order := bucket_order)
                       (Remove Sample.int Sample.e0) Sample.tagged)).
Proof.
  exact (proj1 (proj2 (storages_stay_in_sync (subs := Sample.tagging) (order := bucket_order)
                         tagging_in_sync))
               (Remove Sample.int Sample.e0) Sample.tagged tagged_in_sync).
Defined.

(** C8, as stated, fails: after [2^32] calls of [createEntity] on a new
    world, the next call returns the identifier the first call returned,
    and, that entity being live, [size()] does not grow. *)
Lemma createEntity_recycles_identifier :
  outcome (createEntity (@World_new Z unit)) = Return {| entityId := 0 |} ∧
  outcome (createEntity (create_many UINT_MODULUS (@World_new Z unit)))
  = Return {| entityId := 0 |} ∧
  world_size (world_after (createEntity (create_many UINT_MODULUS (@World_new Z unit))))
  = world_size (create_many UINT_MODULUS (@World_new Z unit)).
Proof.
  destruct (create_many_spec (Component := Z) (Callback := unit) UINT_MODULUS) as [Hnext Hlive];
    [reflexivity|].
  rewrite N.Div0.mod_same in Hnext.
  set (w := create_many UINT_MODULUS World_new) in *. clearbody w.
  split; [reflexivity|]. rewrite createEntity_eq. rewrite outcome_eq, world_after_eq.
  unfold world_size. cbn [entities]. rewrite Hnext. split; [reflexivity|]. f_equal.
  apply subseteq_union_1_L, singleton_subseteq_l, Hlive. reflexivity.
Qed.

(** C8 at work: the subscriber to the create event of [int] creates an
    entity of its own.  After [createEntity], [assign<int>(e0, 5)], during
    which the subscriber is given [e1], and [destroyEntity(e0)],
    [createEntity] returns neither identifier again. *)
Lemma createEntity_returns_fresh_identifier_witness :
  let calls := [CreateEntity; Connect OnCreate Sample.int (); Assign Sample.int Sample.e0 5%Z;
                DestroyEntity Sample.e0] in
  let w := (run (subs := Sample.creating) (order := bucket_order) calls World_new []).1 in
  let issued := (run (subs := Sample.creating) (order := bucket_order) calls World_new []).2 in
  issued = [Sample.e0; Sample.e1] ∧
  ∃ newEntity,
    outcome (createEntity w) = Return newEntity ∧ fired (createEntity w) = [] ∧
    created (createEntity w) = [newEntity] ∧
    newEntity ∈ entities (world_after (createEntity w)) ∧
    world_size (world_after (createEntity w)) =
      world_size w + (if decide (newEntity ∈ entities w) then 0 else 1) ∧
    ((N.of_nat (length issued) < UINT_MODULUS)%N →
     (newEntity ∉ issued) ∧
     (∀ e, e ∈ entities w → e ≠ newEntity) ∧
     world_size (world_after (createEntity w)) = S (world_size w)).
Proof.
  intros calls w issued. split; [vm_compute; reflexivity|].
  exact (createEntity_returns_fresh_identifier (subs := Sample.creating)
           (order := bucket_order) creating_counter calls).
Defined.


(** C6: in [split] the first entity holds an [int] only and the second a
    [float] only.  [each] on [view<int, float>()] skips both and calls
    nothing.  The range-based [for] over the same view starts at the first
    entity of whichever storage comes first, untested, and dereferencing the
    iterator throws [std::out_of_range] before the body is reached, in
    every traversal order of the view's table. *)
Lemma iteration_throws_at_untested_begin (order : HashOrder) (fuel : nat) {St}
    (body : Reference Entity → list Z → St → Outcome St) (acc : St) :
  ∃ v, view [Sample.int; Sample.float] Sample.split = Return v ∧
       each v Sample.collect [] = Return [] ∧
       range_for (S fuel) v body acc = Some (Raise out_of_range, acc, [0]).
Proof.
  eexists. split; [apply view_eq|].
  destruct (base_viewed (order := order) [Sample.int; Sample.float]
              (viewed [Sample.int; Sample.float] Sample.split)) as (T0 & HT0 & Hbase);
    [discriminate|].
  unfold each, range_for, begin, end_. rewrite Hbase.
  apply elem_of_cons in HT0 as [->|HT0]; [by vm_compute|].
  apply list_elem_of_singleton in HT0 as ->. by vm_compute.
Qed.

(** C10: [single] has one entity, which holds an [int].  The range-based
    [for] over [view<int>()], with a body that leaves the entity alone,
    runs the body for it, and dereferences the set iterator twice: at
    position 0 in [operator*], and at position 1, which is the end position
    of a set of one element, in [operator++]; what the loop does from there
    is undefined. *)
Lemma iteration_reads_through_end (order : HashOrder) (fuel : nat) :
  ∃ v, view [Sample.int] Sample.single = Return v ∧
       (∃ it, end_ v = Return it ∧ position (entityIterator it) = 1) ∧
       range_for (S fuel) v Sample.gather [] =
       Some (Raise undefined, [[5%Z]], [0; 1]).
Proof.
  eexists. split; [apply view_eq|].
  destruct (base_viewed (order := order) [Sample.int]
              (viewed [Sample.int] Sample.single)) as (T0 & HT0 & Hbase);
    [discriminate|].
  apply list_elem_of_singleton in HT0 as ->.
  unfold range_for, end_, begin. rewrite Hbase.
  split; [eexists; split; [reflexivity|by vm_compute]|].
  by vm_compute.
Qed.

(** ** The further properties *)

(** X1 at work, for [view<int>()] of [single], one unit of fuel and the
    body that records the values. *)
Lemma range_for_spec_witness :
  let v := View_new [Sample.int] (viewed [Sample.int] Sample.single <$> [Sample.int]) in
  ∃ b, base (order := bucket_order) v = Return b ∧
       (length (in_order (st_entities b)) ≤ 1 →
        match in_order (st_entities b) with
        | [] => range_for (order := bucket_order) 1 v Sample.gather []
                = Some (Return (), [], [])
        | e :: _ =>
            if decide (holds_all [Sample.int] e Sample.single) then
              ((∀ args st, Sample.gather Dangling args st = Return (st ++ [args])) →
               ∃ reads,
                 range_for (order := bucket_order) 1 v Sample.gather [] =
                 Some (Raise undefined,
                       foldl (λ acc e, acc ++ [values [Sample.int] e Sample.single]) []
                             (holders [Sample.int] Sample.single),
                       reads ++ [length (in_order (st_entities b))])) ∧
              (∀ f, Sample.gather Dangling (values [Sample.int] e Sample.single) []
                    = Raise f →
                    range_for (order := bucket_order) 1 v Sample.gather []
                    = Some (Raise f, [], [0]))
            else range_for (order := bucket_order) 1 v Sample.gather []
                 = Some (Raise out_of_range, [], [0])
        end).
Proof.
  apply (range_for_spec (order := bucket_order)
           [Sample.int] Sample.single 1 Sample.gather (λ args st, st ++ [args]) []).
  - discriminate.
  - apply session_quiet_in_sync.
Defined.


(** X6 at work: in [observed] the subscriber to the remove event of [int]
    reads the [float] of [e0], which is there; what [remove<int>(e0)]
    leaves. *)
Lemma remove_changes_one_component_witness :
  subscribers OnRemove Sample.int Sample.observed = {[ 0%N := () ]} ∧
  world_after (remove (subs := Sample.getting) (order := bucket_order)
                      Sample.int Sample.e0 Sample.observed)
  = put Sample.int (erase Sample.e0 (storage_of Sample.int Sample.observed)) Sample.observed.
Proof.
  split; [vm_compute; reflexivity|].
  assert (Hobs : observers (subs := Sample.getting) OnRemove Sample.int Sample.e0
                   (put Sample.int (storage_of Sample.int Sample.observed) Sample.observed)).
  { intros id cb _. split; vm_compute; reflexivity. }
  exact (proj1 (proj2 (proj2
           (remove_changes_one_component (subs := Sample.getting) (order := bucket_order)
              Sample.int Sample.e0 Sample.observed Hobs)))).
Defined.

(** X7 at work: in [awaited] the subscribers to the create and the remove
    event of [float] read the [float] of [e0], which is there when they are
    called; after [assign<float>(e0, 2)] and [remove<float>(e0)] the world
    is as before. *)
Lemma assign_then_remove_restores_witness :
  subscribers OnCreate Sample.float Sample.awaited = {[ 0%N := () ]} ∧
  subscribers OnRemove Sample.float Sample.awaited = {[ 0%N := () ]} ∧
  world_after
    (remove (subs := Sample.getting) (order := bucket_order) Sample.float Sample.e0
       (world_after (assign (subs := Sample.getting) (order := bucket_order)
                            Sample.float Sample.e0 2%Z Sample.awaited)))
  = Sample.awaited.
Proof.
  split; [vm_compute; reflexivity|]. split; [vm_compute; reflexivity|].
  assert (Hhas : has Sample.float Sample.e0 Sample.awaited = Return false)
    by (vm_compute; reflexivity).
  assert (Hstorage : hasStorage Sample.float Sample.awaited = true)
    by (vm_compute; reflexivity).
  assert (Hobs : ∀ p, observers (subs := Sample.getting) p Sample.float Sample.e0
                   (put Sample.float
                        (insert_or_assign Sample.e0 2%Z
                           (storage_of Sample.float Sample.awaited)) Sample.awaited)).
  { intros p id cb _. split; vm_compute; reflexivity. }
  exact (proj2 (proj2 (proj2 (proj2 (proj2 (proj2
           (assign_then_remove_restores (subs := Sample.getting) (order := bucket_order)
              Sample.float Sample.e0 2%Z Sample.awaited awaited_in_sync
              Hhas (Hobs OnCreate) (Hobs OnRemove))))))) Hstorage).
Defined.

(** X8 at work: after one [connect] and the [disconnect] of what it
    returned, [connect] returns 1, not 0 again. *)
Lemma connect_returns_unused_id_witness :
  (connect () (dispatch [DoConnect (); DoDisconnect 0%N] EventDispatcher_new []).1).1 = 1%N.
Proof.
  assert (Hlt : (N.of_nat (length (dispatch [DoConnect (); DoDisconnect 0%N]
                                            EventDispatcher_new []).2) < UINT_MODULUS)%N)
    by (vm_compute; reflexivity).
  exact (proj1 (proj2 (proj2
           (connect_returns_unused_id [DoConnect (); DoDisconnect 0%N] () Hlt)))).
Defined.

(** X9 at work: the subscriber to the create event of [int] gives the
    entity a [float]; the entity created after [e0] was given an [int],
    and with it a [float], and destroyed holds nothing. *)
Lemma created_entity_holds_nothing_witness :
  let calls := [CreateEntity; Connect OnCreate Sample.int (); Assign Sample.int Sample.e0 5%Z;
                DestroyEntity Sample.e0] in
  let w := (run (subs := Sample.tagging) (order := bucket_order) calls World_new []).1 in
  ∃ newEntity,
    outcome (createEntity w) = Return newEntity ∧
    (∀ T, has T newEntity (world_after (createEntity w)) = Return false ∧
          get T newEntity (world_after (createEntity w)) = Raise out_of_range) ∧
    (∀ T e, has T e (world_after (createEntity w)) = has T e w ∧
            get T e (world_after (createEntity w)) = get T e w).
Proof.
  intros calls w.
  apply (created_entity_holds_nothing (subs := Sample.tagging) (order := bucket_order)
           tagging_fresh calls).
  - vm_compute. repeat split. left.
  - vm_compute. reflexivity.
Defined.

(** X10 at work: a session with two subscribers to the same event, one
    of which gives the entity a [float] and the other a [double], with the
    table of callbacks gone through from either side. *)
Lemma publish_order_is_irrelevant_witness :
  let calls := [CreateEntity; Connect OnCreate Sample.int true;
                Connect OnCreate Sample.int false; Assign Sample.int Sample.e0 5%Z] in
  run (subs := Sample.marking) (order := bucket_order) calls World_new []
  = run (subs := Sample.marking) (order := reverse_order) calls World_new [].
Proof.
  intros calls.
  exact (proj2 (proj2
           (publish_order_is_irrelevant (subs := Sample.marking)
              (λ cb w e, proj1 (marking_returns cb w e)) marking_keeps marking_commute
              bucket_order reverse_order))
           calls World_new []).
Defined.

(** X12 at work: the subscriber of [watched] is still subscribed when the
    only entity has been destroyed. *)
Lemma subscriptions_stay_witness :
  subscribers OnCreate Sample.int
    (world_after (call (subs := Sample.quiet) (order := bucket_order)
                       (DestroyEntity Sample.e0) Sample.watched))
  = subscribers OnCreate Sample.int Sample.watched.
Proof.
  exact (proj1 (proj2
           (subscriptions_stay (subs := Sample.quiet) (order := bucket_order)
              (λ cb w e, conj (λ T H, H) (λ p T, eq_refl))
              (DestroyEntity Sample.e0) Sample.watched))
           OnCreate Sample.int I).
Defined.

(** X13 at work: creating and destroying a second entity in the world of
    X9 at work, before [e0] is destroyed. *)
Lemma create_then_destroy_restores_witness :
  let calls := [CreateEntity; Connect OnCreate Sample.int ();
                Assign Sample.int Sample.e0 5%Z] in
  let w := (run (subs := Sample.tagging) (order := bucket_order) calls World_new []).1 in
  ∃ newEntity,
    outcome (createEntity w) = Return newEntity ∧
    let w' := world_after (destroyEntity newEntity (world_after (createEntity w))) in
    entities w' = entities w ∧
    componentStorage w' = componentStorage w ∧
    nextEntityId w' = uint_succ (nextEntityId w) ∧
    nextEntityId w' ≠ nextEntityId w.
Proof.
  intros calls w.
  apply (create_then_destroy_restores (subs := Sample.tagging) (order := bucket_order)
           tagging_fresh tagging_in_sync calls).
  - vm_compute. repeat split. left.
  - vm_compute. reflexivity.
Defined.

(** ** The table of callbacks is gone through while the callbacks run

    Of two subscribers to the create event of [int], the second
    disconnects the first, which gives the entity a [float].  Gone through
    from one side the table has the first disconnected before its turn, and
    it is not called; from the other side it is called before it is
    disconnected. *)
Example publish_skips_the_disconnected :
  let calls := [CreateEntity; Connect OnCreate Sample.int true;
                Connect OnCreate Sample.int false; Assign Sample.int Sample.e0 5%Z] in
  has Sample.float Sample.e0
      (run (subs := Sample.unhooking) (order := bucket_order) calls World_new []).1
  = Return false ∧
  has Sample.float Sample.e0
      (run (subs := Sample.unhooking) (order := reverse_order) calls World_new []).1
  = Return true.
Proof. split; vm_compute; reflexivity. Qed.
